(** * The external scanner of tree-sitter-neon (src/scanner.c)

    A shallow embedding of the string-interpolation scanner: the scanner
    state ([Scanner], one C [int]), the host cursor it drives ([TSLexer]),
    the three-branch [scan] function with its content loop, and the state
    codec ([serialize] / [deserialize]).  Characters are code points in [Z],
    as [lexer->lookahead] is an [int32_t]; the serialisation buffer is a
    list of byte values. *)

From Stdlib Require Import ZArith List Bool Lia Ascii String.
From Stdlib.Strings Require Import Byte.
Import ListNotations.
Local Open Scope Z_scope.

(** ** Characters *)

Definition code (c : ascii) : Z := Z.of_N (N_of_ascii c).

Definition codes (s : string) : list Z := map code (list_ascii_of_string s).

Definition DOLLAR : Z := Eval cbv in code "$".
Definition LBRACE : Z := Eval cbv in code "{".
Definition RBRACE : Z := Eval cbv in code "}".
Definition DQUOTE : Z := 34.      (* the double quote *)
Definition BACKSLASH : Z := 92.   (* the backslash *)
Definition NUL : Z := 0.

(** ** Token kinds and scanner state *)

Inductive TokenType : Type :=
| STRING_CONTENT
| STRING_INTERPOLATION_START
| STRING_INTERPOLATION_END.

(** The numeric value of an enumerator, which is what the scanner stores in
    [lexer->result_symbol] and uses to index [valid_symbols]. *)
Definition symbol (t : TokenType) : Z :=
  match t with
  | STRING_CONTENT => 0
  | STRING_INTERPOLATION_START => 1
  | STRING_INTERPOLATION_END => 2
  end.

Record Scanner : Type := mkScanner { brace_depth : Z }.

(** ** The host cursor

    Modelled from the spec: the cursor object of the host ([TSLexer], declared
    in tree_sitter/parser.h, which is not among the sources).  It offers the
    current character (a 0 sentinel at the end of input), an advance by one
    character, a mark of the token end at the current position, and a result
    slot.  There is no operation that moves the cursor back. *)
Record TSLexer : Type := mkLexer {
  input : list Z;            (* the characters from the cursor on *)
  position : nat;            (* how many characters were advanced over *)
  token_end : option nat;    (* the position of the last mark_end, if any *)
  result_symbol : Z          (* the recognised-kind slot *)
}.

Definition lookahead (lx : TSLexer) : Z := hd NUL (input lx).

Definition advance (lx : TSLexer) : TSLexer :=
  match input lx with
  | [] => lx
  | _ :: rest =>
      {| input := rest; position := S (position lx);
         token_end := token_end lx; result_symbol := result_symbol lx |}
  end.

Definition mark_end (lx : TSLexer) : TSLexer :=
  {| input := input lx; position := position lx;
     token_end := Some (position lx); result_symbol := result_symbol lx |}.

Definition set_result_symbol (t : TokenType) (lx : TSLexer) : TSLexer :=
  {| input := input lx; position := position lx;
     token_end := token_end lx; result_symbol := symbol t |}.

(** ** create *)

Definition tree_sitter_neon_external_scanner_create : Scanner :=
  {| brace_depth := 0 |}.

(** ** scan *)

(** How a branch of [scan] ends: with a [return], or by falling through to
    the code after it. *)
Inductive branch : Type :=
| Returned (result : bool) (sc : Scanner) (lx : TSLexer)
| FellThrough (sc : Scanner) (lx : TSLexer).

(** [if (valid_symbols[STRING_INTERPOLATION_START]) { ... }] *)
Definition interpolation_start_branch
    (valid_symbols : TokenType -> bool) (sc : Scanner) (lx : TSLexer) : branch :=
  if valid_symbols STRING_INTERPOLATION_START then
    if lookahead lx =? DOLLAR then
      let lx1 := advance lx in
      if lookahead lx1 =? LBRACE then
        let lx2 := advance lx1 in
        let lx3 := mark_end lx2 in
        let lx4 := set_result_symbol STRING_INTERPOLATION_START lx3 in
        Returned true {| brace_depth := 1 |} lx4
      else FellThrough sc lx1
    else FellThrough sc lx
  else FellThrough sc lx.

(** [if (valid_symbols[STRING_INTERPOLATION_END]) { ... }] *)
Definition interpolation_end_branch
    (valid_symbols : TokenType -> bool) (sc : Scanner) (lx : TSLexer) : branch :=
  if valid_symbols STRING_INTERPOLATION_END then
    if (lookahead lx =? RBRACE) && (brace_depth sc >? 0) then
      let lx1 := advance lx in
      let lx2 := mark_end lx1 in
      let lx3 := set_result_symbol STRING_INTERPOLATION_END lx2 in
      Returned true {| brace_depth := 0 |} lx3
    else FellThrough sc lx
  else FellThrough sc lx.

(** How the [while (true)] loop of the content branch is left: by [break],
    or by the [return has_content] in its middle. *)
Inductive loop_exit : Type :=
| LoopBreak (has_content : bool) (lx : TSLexer)
| LoopReturn (result : bool) (lx : TSLexer).

(** The loop body, iterated; [fuel] bounds the number of iterations and
    [None] means the bound was reached. *)
Fixpoint content_loop (fuel : nat) (has_content : bool) (lx : TSLexer)
  : option loop_exit :=
  match fuel with
  | O => None
  | S fuel' =>
      if (lookahead lx =? DQUOTE) || (lookahead lx =? NUL) then
        Some (LoopBreak has_content lx)
      else if lookahead lx =? BACKSLASH then
        Some (LoopBreak has_content lx)
      else if lookahead lx =? DOLLAR then
        let lx1 := mark_end lx in
        let lx2 := advance lx1 in
        if lookahead lx2 =? LBRACE then
          Some (LoopReturn has_content lx2)
        else content_loop fuel' true lx2
      else content_loop fuel' true (advance lx)
  end.

(** Every iteration that does not leave the loop advances over one
    character, so one more iteration than there are characters is enough. *)
Definition loop_fuel (lx : TSLexer) : nat := S (List.length (input lx)).

(** [if (valid_symbols[STRING_CONTENT]) { ... }] *)
Definition string_content_branch
    (valid_symbols : TokenType -> bool) (sc : Scanner) (lx : TSLexer)
  : option branch :=
  if valid_symbols STRING_CONTENT then
    match content_loop (loop_fuel lx) false lx with
    | None => None
    | Some (LoopReturn r lx') => Some (Returned r sc lx')
    | Some (LoopBreak has_content lx') =>
        if has_content then
          let lx1 := mark_end lx' in
          let lx2 := set_result_symbol STRING_CONTENT lx1 in
          Some (Returned true sc lx2)
        else Some (FellThrough sc lx')
    end
  else Some (FellThrough sc lx).

(** The whole function: the returned [bool], the scanner state and the
    cursor as the call leaves them. *)
Definition tree_sitter_neon_external_scanner_scan
    (sc : Scanner) (lx : TSLexer) (valid_symbols : TokenType -> bool)
  : option (bool * Scanner * TSLexer) :=
  match interpolation_start_branch valid_symbols sc lx with
  | Returned r sc' lx' => Some (r, sc', lx')
  | FellThrough sc1 lx1 =>
      match interpolation_end_branch valid_symbols sc1 lx1 with
      | Returned r sc' lx' => Some (r, sc', lx')
      | FellThrough sc2 lx2 =>
          match string_content_branch valid_symbols sc2 lx2 with
          | None => None
          | Some (Returned r sc' lx') => Some (r, sc', lx')
          | Some (FellThrough sc3 lx3) => Some (false, sc3, lx3)
          end
      end
  end.

Abbreviation scan := tree_sitter_neon_external_scanner_scan.

(** The characters of the token a successful call commits: from the cursor
    position at entry up to the marked end. *)
Definition committed_span (entry exit : TSLexer) : option (list Z) :=
  match token_end exit with
  | Some e => Some (firstn (e - position entry)%nat (input entry))
  | None => None
  end.

(** Accepted-kind sets used in the examples. *)
Definition accepts (kinds : list TokenType) (t : TokenType) : bool :=
  existsb (fun k => symbol k =? symbol t) kinds.

Definition lexer_at (s : string) : TSLexer :=
  {| input := codes s; position := 0; token_end := None; result_symbol := 0 |}.

(** The characters left for the next token: from the marked end on. *)
Definition uncommitted (entry exit : TSLexer) : option (list Z) :=
  match token_end exit with
  | Some e => Some (skipn (e - position entry)%nat (input entry))
  | None => None
  end.

(** The characters at which the content loop breaks. *)
Definition stop_char (c : Z) : bool :=
  (c =? DQUOTE) || (c =? NUL) || (c =? BACKSLASH).

(** Whether a [$] immediately followed by [{] occurs in a run of characters. *)
Fixpoint has_opener (l : list Z) : bool :=
  match l with
  | [] => false
  | c :: rest => ((c =? DOLLAR) && (hd NUL rest =? LBRACE)) || has_opener rest
  end.

(** ** serialize / deserialize

    [memcpy] moves the object representation of the [int]: [sizeof_int]
    bytes, two's complement, in the byte order of the platform, which is a
    parameter here. *)

Definition sizeof_int : nat := 4.

Definition byte_of_Z (z : Z) : byte :=
  match Byte.of_N (Z.to_N (z mod 256)) with
  | Some b => b
  | None => x00
  end.

Definition Z_of_byte (b : byte) : Z := Z.of_N (Byte.to_N b).

Fixpoint le_bytes (n : nat) (u : Z) : list byte :=
  match n with
  | O => []
  | S n' => byte_of_Z u :: le_bytes n' (u / 256)
  end.

Fixpoint le_value (bs : list byte) : Z :=
  match bs with
  | [] => 0
  | b :: bs' => Z_of_byte b + 256 * le_value bs'
  end.

Definition int_modulus : Z := 2 ^ (8 * Z.of_nat sizeof_int).

Section Codec.

Variable big_endian : bool.

Definition int_to_bytes (v : Z) : list byte :=
  let l := le_bytes sizeof_int (v mod int_modulus) in
  if big_endian then rev l else l.

Definition int_of_bytes (bs : list byte) : Z :=
  let u := le_value (if big_endian then rev bs else bs) in
  if u <? int_modulus / 2 then u else u - int_modulus.

(** The bytes written to the buffer; their number is the returned
    [sizeof(int)]. *)
Definition tree_sitter_neon_external_scanner_serialize (sc : Scanner)
  : list byte :=
  if (0 <? sizeof_int)%nat then int_to_bytes (brace_depth sc) else [].

(** [length] is the length of [buffer].  A nonempty buffer shorter than an
    [int] makes [memcpy] read past its end: no defined result ([None]). *)
Definition tree_sitter_neon_external_scanner_deserialize
    (sc : Scanner) (buffer : list byte) : option Scanner :=
  if (0 <? List.length buffer)%nat then
    if (sizeof_int <=? List.length buffer)%nat then
      Some {| brace_depth := int_of_bytes (firstn sizeof_int buffer) |}
    else None
  else Some sc.

(** ** Sessions

    The host side of a session: the scanner it owns and the snapshots it
    took with [serialize]. *)
Record host : Type := mkHost {
  payload : Scanner;
  snapshots : list (list byte)
}.

Inductive operation : Type :=
| OpCreate
| OpScan (lx : TSLexer) (valid_symbols : TokenType -> bool)
| OpSerialize
| OpDeserialize (buffer : list byte).

Definition step (op : operation) (h : host) : option host :=
  match op with
  | OpCreate =>
      Some {| payload := tree_sitter_neon_external_scanner_create;
              snapshots := snapshots h |}
  | OpScan lx valid_symbols =>
      match scan (payload h) lx valid_symbols with
      | Some (_, sc', _) => Some {| payload := sc'; snapshots := snapshots h |}
      | None => None
      end
  | OpSerialize =>
      Some {| payload := payload h;
              snapshots :=
                tree_sitter_neon_external_scanner_serialize (payload h)
                :: snapshots h |}
  | OpDeserialize buffer =>
      match tree_sitter_neon_external_scanner_deserialize (payload h) buffer with
      | Some sc' => Some {| payload := sc'; snapshots := snapshots h |}
      | None => None
      end
  end.

Fixpoint run (ops : list operation) (h : host) : option host :=
  match ops with
  | [] => Some h
  | op :: rest =>
      match step op h with
      | Some h' => run rest h'
      | None => None
      end
  end.

Fixpoint buffer_eqb (a b : list byte) : bool :=
  match a, b with
  | [], [] => true
  | x :: a', y :: b' => Byte.eqb x y && buffer_eqb a' b'
  | _, _ => false
  end.

(** A deserialize is a restore when its buffer is empty or is one of the
    snapshots taken earlier in the run. *)
Definition restores (h : host) (op : operation) : bool :=
  match op with
  | OpDeserialize buffer =>
      match buffer with
      | [] => true
      | _ => existsb (buffer_eqb buffer) (snapshots h)
      end
  | _ => true
  end.

Fixpoint only_restores (ops : list operation) (h : host) : bool :=
  match ops with
  | [] => true
  | op :: rest =>
      restores h op &&
      match step op h with
      | Some h' => only_restores rest h'
      | None => false
      end
  end.

End Codec.

Abbreviation serialize := tree_sitter_neon_external_scanner_serialize.
Abbreviation deserialize := tree_sitter_neon_external_scanner_deserialize.

Definition new_session : host :=
  {| payload := tree_sitter_neon_external_scanner_create; snapshots := [] |}.

(** ** Specifications used by the proofs *)

(** What the loop has done when it is left.  [pre] is the run of characters
    it advanced over as content and [post] what follows it. *)
Definition loop_exit_ok (has_content : bool) (lx : TSLexer) (e : loop_exit)
  : Prop :=
  exists pre post,
    input lx = pre ++ post /\
    forallb (fun c => negb (stop_char c)) pre = true /\
    has_opener (pre ++ firstn 1 post) = false /\
    match e with
    | LoopBreak hc' lx' =>
        hc' = has_content || negb (Nat.eqb (List.length pre) 0) /\
        stop_char (hd NUL post) = true /\
        input lx' = post /\
        position lx' = (position lx + List.length pre)%nat /\
        result_symbol lx' = result_symbol lx /\
        (pre = [] -> lx' = lx)
    | LoopReturn r lx' =>
        r = has_content || negb (Nat.eqb (List.length pre) 0) /\
        exists tl,
          post = DOLLAR :: LBRACE :: tl /\
          lx' = {| input := LBRACE :: tl;
                   position := S (position lx + List.length pre);
                   token_end := Some (position lx + List.length pre)%nat;
                   result_symbol := result_symbol lx |}
    end.

(** The depth is one of the two values of the flag. *)
Definition depth_ok (sc : Scanner) : Prop :=
  brace_depth sc = 0 \/ brace_depth sc = 1.

(** The invariant of a session: the depth is 0 or 1, and so it was in every
    state a snapshot was taken of. *)
Definition host_ok (big_endian : bool) (h : host) : Prop :=
  depth_ok (payload h) /\
  Forall (fun s => exists sc, depth_ok sc /\ s = serialize big_endian sc)
         (snapshots h).

(** A session that opens an interpolation, takes a snapshot, closes the
    interpolation, is recreated and restored. *)
Definition example_session : list operation :=
  [ OpScan (lexer_at "${b}") (accepts [STRING_INTERPOLATION_START]);
    OpSerialize;
    OpScan (lexer_at "}c") (accepts [STRING_INTERPOLATION_END]);
    OpCreate;
    OpDeserialize [x01; x00; x00; x00];
    OpDeserialize [] ].


(** The content run at the head of a text: its longest prefix that holds no
    character the loop stops at and does not run into a [$] followed by
    [{]. *)
Fixpoint text_run (l : list Z) : list Z :=
  match l with
  | [] => []
  | c :: rest =>
      if stop_char c then []
      else if (c =? DOLLAR) && (hd NUL rest =? LBRACE) then []
      else c :: text_run rest
  end.

(** The values of a C [int]. *)
Definition int_range (v : Z) : Prop :=
  - (int_modulus / 2) <= v < int_modulus / 2.

(** A sequence of scan calls on one scanner, each on the cursor and with the
    accepted kinds the host chose for it; the outcome of each call is the
    returned [bool] and the result slot. *)
Fixpoint scan_all (sc : Scanner) (calls : list (TSLexer * (TokenType -> bool)))
  : option (Scanner * list (bool * Z)) :=
  match calls with
  | [] => Some (sc, [])
  | (lx, valid_symbols) :: rest =>
      match scan sc lx valid_symbols with
      | Some (r, sc1, lx1) =>
          match scan_all sc1 rest with
          | Some (sc', outs) => Some (sc', (r, result_symbol lx1) :: outs)
          | None => None
          end
      | None => None
      end
  end.

(** The flag that a history of outcomes determines: 1 after an opener, 0
    after a closer, and unchanged by everything else. *)
Definition flag_update (d : Z) (out : bool * Z) : Z :=
  if fst out then
    if snd out =? symbol STRING_INTERPOLATION_START then 1
    else if snd out =? symbol STRING_INTERPOLATION_END then 0
    else d
  else d.

Definition flag_after (d : Z) (outs : list (bool * Z)) : Z :=
  fold_left flag_update outs d.

(** * Properties *)

(** ** The cursor *)

Lemma lookahead_cons (c : Z) (rest : list Z) (p : nat) (te : option nat) (rs : Z) :
  lookahead {| input := c :: rest; position := p; token_end := te;
               result_symbol := rs |} = c.
Proof. reflexivity. Qed.

Lemma lookahead_not_nul (lx : TSLexer) :
  lookahead lx <> NUL -> exists rest, input lx = lookahead lx :: rest.
Proof.
  unfold lookahead. destruct (input lx) as [|c rest]; simpl.
  - intros H. now elim H.
  - intros _. now exists rest.
Qed.

Lemma advance_length (lx : TSLexer) :
  lookahead lx <> NUL ->
  S (List.length (input (advance lx))) = List.length (input lx).
Proof.
  intros H. destruct (lookahead_not_nul lx H) as [rest E].
  unfold advance. rewrite E. reflexivity.
Qed.

Lemma input_advance_mark_end (lx : TSLexer) :
  input (advance (mark_end lx)) = input (advance lx).
Proof.
  unfold advance, mark_end. simpl.
  destruct (input lx) eqn:E; simpl; congruence.
Qed.

Lemma hd_app_firstn (l1 l2 : list Z) :
  hd NUL (l1 ++ firstn 1 l2) = hd NUL (l1 ++ l2).
Proof. destruct l1; [destruct l2|]; reflexivity. Qed.

(** ** The content loop *)

(** The loop cannot run out of iterations when given one more than there
    are characters left. *)
Lemma content_loop_total (fuel : nat) :
  forall has_content lx,
    (List.length (input lx) < fuel)%nat ->
    exists e, content_loop fuel has_content lx = Some e.
Proof.
  induction fuel as [|fuel IH]; intros hc lx Hlen; [lia|].
  simpl.
  destruct ((lookahead lx =? DQUOTE) || (lookahead lx =? NUL)) eqn:Estop;
    [eauto|].
  destruct (lookahead lx =? BACKSLASH); [eauto|].
  apply orb_false_elim in Estop. destruct Estop as [_ Enul].
  apply Z.eqb_neq in Enul.
  pose proof (advance_length lx Enul) as Hadv.
  destruct (lookahead lx =? DOLLAR).
  - destruct (lookahead (advance (mark_end lx)) =? LBRACE); [eauto|].
    apply IH.
    rewrite input_advance_mark_end. lia.
  - apply IH. lia.
Qed.

Lemma loop_exit_ok_cons (c : Z) (lx lx1 : TSLexer) (rest : list Z) (e : loop_exit) :
  input lx = c :: rest ->
  input lx1 = rest ->
  position lx1 = S (position lx) ->
  result_symbol lx1 = result_symbol lx ->
  stop_char c = false ->
  (c =? DOLLAR) && (hd NUL rest =? LBRACE) = false ->
  loop_exit_ok true lx1 e ->
  forall has_content, loop_exit_ok has_content lx e.
Proof.
  intros Hin Hin1 Hpos Hrs Hstop Hopen (pre & post & Hsplit & Hpre & Hno & He) hc.
  exists (c :: pre), post.
  rewrite Hin1 in Hsplit.
  repeat split.
  - rewrite Hin, Hsplit. reflexivity.
  - simpl. now rewrite Hstop, Hpre.
  - cbn [app has_opener].
    rewrite hd_app_firstn, <- Hsplit, Hopen, Hno. reflexivity.
  - destruct e as [hc' lx'|r lx'].
    + destruct He as (Ehc & Hst & Ein & Epos & Ers & _).
      repeat split; try assumption.
      * rewrite Ehc. simpl. now rewrite orb_true_r.
      * rewrite Epos, Hpos. simpl. lia.
      * congruence.
      * discriminate.
    + destruct He as (Er & tl & Epost & Elx).
      split.
      * rewrite Er. simpl. now rewrite orb_true_r.
      * exists tl. split; [assumption|].
        rewrite Elx, Hpos, Hrs. simpl.
        replace (position lx + S (List.length pre))%nat
          with (S (position lx + List.length pre))%nat by lia.
        reflexivity.
Qed.

Lemma content_loop_spec (fuel : nat) :
  forall has_content lx e,
    content_loop fuel has_content lx = Some e ->
    loop_exit_ok has_content lx e.
Proof.
  induction fuel as [|fuel IH]; intros hc lx e; simpl; [discriminate|].
  assert (Hbreak : stop_char (lookahead lx) = true ->
                   loop_exit_ok hc lx (LoopBreak hc lx)).
  { intros Hst. exists [], (input lx). simpl.
    repeat split; try reflexivity.
    - destruct (input lx) as [|c rest]; simpl; [reflexivity|].
      now rewrite andb_false_r.
    - now rewrite orb_false_r.
    - exact Hst.
    - now rewrite Nat.add_0_r. }
  destruct ((lookahead lx =? DQUOTE) || (lookahead lx =? NUL)) eqn:E1.
  { intros [= <-]. apply Hbreak. unfold stop_char. now rewrite E1. }
  destruct (lookahead lx =? BACKSLASH) eqn:E2.
  { intros [= <-]. apply Hbreak. unfold stop_char. rewrite E2.
    now rewrite orb_true_r. }
  assert (Hstop : stop_char (lookahead lx) = false).
  { unfold stop_char. now rewrite E1, E2. }
  apply orb_false_elim in E1. destruct E1 as [_ Enul].
  apply Z.eqb_neq in Enul.
  destruct (lookahead_not_nul lx Enul) as [rest Hin].
  destruct (lookahead lx =? DOLLAR) eqn:E3.
  - assert (Hadv : advance (mark_end lx) =
                   {| input := rest; position := S (position lx);
                      token_end := Some (position lx);
                      result_symbol := result_symbol lx |}).
    { unfold advance, mark_end. simpl. rewrite Hin. reflexivity. }
    rewrite Hadv.
    destruct (lookahead _ =? LBRACE) eqn:E4.
    + intros [= <-].
      apply Z.eqb_eq in E3, E4. unfold lookahead in E4. simpl in E4.
      destruct rest as [|c tl]; simpl in E4; [discriminate|]. subst c.
      exists [], (input lx). rewrite Hin, E3. simpl.
      repeat split; trivial.
      * now rewrite orb_false_r.
      * exists tl. split; [reflexivity|]. now rewrite Nat.add_0_r.
    + intros Hloop. apply IH in Hloop.
      eapply loop_exit_ok_cons; [exact Hin| | | | exact Hstop | | exact Hloop];
        try reflexivity.
      rewrite E3. simpl. exact E4.
  - intros Hloop. apply IH in Hloop.
    assert (Hadv : advance lx =
                   {| input := rest; position := S (position lx);
                      token_end := token_end lx;
                      result_symbol := result_symbol lx |}).
    { unfold advance. rewrite Hin. reflexivity. }
    rewrite Hadv in Hloop.
    eapply loop_exit_ok_cons; [exact Hin| | | | exact Hstop | | exact Hloop];
      try reflexivity.
    now rewrite E3.
Qed.

(** ** The three branches of scan *)

Lemma interpolation_start_returned vs sc lx r sc' lx' :
  interpolation_start_branch vs sc lx = Returned r sc' lx' ->
  r = true /\ sc' = {| brace_depth := 1 |} /\
  vs STRING_INTERPOLATION_START = true /\
  exists tl,
    input lx = DOLLAR :: LBRACE :: tl /\
    lx' = {| input := tl; position := S (S (position lx));
             token_end := Some (S (S (position lx)));
             result_symbol := symbol STRING_INTERPOLATION_START |}.
Proof.
  unfold interpolation_start_branch.
  destruct (vs STRING_INTERPOLATION_START); [|discriminate].
  destruct (lookahead lx =? DOLLAR) eqn:E1; [|discriminate].
  destruct (lookahead (advance lx) =? LBRACE) eqn:E2; [|discriminate].
  intros [= <- <- <-].
  apply Z.eqb_eq in E1, E2.
  destruct lx as [inp p te rs]. unfold lookahead, advance in *. simpl in *.
  destruct inp as [|c1 inp]; simpl in *; [discriminate|].
  destruct inp as [|c2 tl]; simpl in *; [discriminate|].
  subst. repeat split. now exists tl.
Qed.

Lemma interpolation_start_fell_through vs sc lx sc1 lx1 :
  interpolation_start_branch vs sc lx = FellThrough sc1 lx1 ->
  sc1 = sc /\
  ((lx1 = lx /\
    (vs STRING_INTERPOLATION_START = false \/ lookahead lx <> DOLLAR)) \/
   (vs STRING_INTERPOLATION_START = true /\
    exists rest,
      input lx = DOLLAR :: rest /\ hd NUL rest <> LBRACE /\
      lx1 = {| input := rest; position := S (position lx);
               token_end := token_end lx;
               result_symbol := result_symbol lx |})).
Proof.
  unfold interpolation_start_branch.
  destruct (vs STRING_INTERPOLATION_START); [|intros [= <- <-]; auto].
  destruct (lookahead lx =? DOLLAR) eqn:E1.
  - destruct (lookahead (advance lx) =? LBRACE) eqn:E2; [discriminate|].
    intros [= <- <-]. split; [reflexivity|]. right. split; [reflexivity|].
    apply Z.eqb_eq in E1. apply Z.eqb_neq in E2.
    destruct lx as [inp p te rs]. unfold lookahead, advance in *. simpl in *.
    destruct inp as [|c1 rest]; simpl in *; [discriminate|].
    subst. now exists rest.
  - intros [= <- <-]. apply Z.eqb_neq in E1. auto.
Qed.

Lemma interpolation_end_returned vs sc lx r sc' lx' :
  interpolation_end_branch vs sc lx = Returned r sc' lx' ->
  r = true /\ sc' = {| brace_depth := 0 |} /\
  vs STRING_INTERPOLATION_END = true /\ brace_depth sc > 0 /\
  exists tl,
    input lx = RBRACE :: tl /\
    lx' = {| input := tl; position := S (position lx);
             token_end := Some (S (position lx));
             result_symbol := symbol STRING_INTERPOLATION_END |}.
Proof.
  unfold interpolation_end_branch.
  destruct (vs STRING_INTERPOLATION_END); [|discriminate].
  destruct ((lookahead lx =? RBRACE) && (brace_depth sc >? 0)) eqn:E;
    [|discriminate].
  intros [= <- <- <-].
  apply andb_prop in E. destruct E as [E1 E2].
  apply Z.eqb_eq in E1. apply Z.gtb_gt in E2.
  destruct lx as [inp p te rs]. unfold lookahead, advance in *. simpl in *.
  destruct inp as [|c1 tl]; simpl in *; [discriminate|].
  subst. repeat split; trivial. now exists tl.
Qed.

Lemma interpolation_end_fell_through vs sc lx sc1 lx1 :
  interpolation_end_branch vs sc lx = FellThrough sc1 lx1 ->
  sc1 = sc /\ lx1 = lx /\
  (vs STRING_INTERPOLATION_END = false \/ lookahead lx <> RBRACE \/
   brace_depth sc <= 0).
Proof.
  unfold interpolation_end_branch.
  destruct (vs STRING_INTERPOLATION_END); [|intros [= <- <-]; auto].
  destruct ((lookahead lx =? RBRACE) && (brace_depth sc >? 0)) eqn:E;
    [discriminate|].
  intros [= <- <-]. repeat split. right.
  apply andb_false_iff in E. destruct E as [E|E].
  - left. now apply Z.eqb_neq.
  - right. rewrite Z.gtb_ltb in E. apply Z.ltb_ge in E. exact E.
Qed.

Lemma string_content_total vs sc lx :
  exists b, string_content_branch vs sc lx = Some b.
Proof.
  unfold string_content_branch.
  destruct (vs STRING_CONTENT); [|eauto].
  destruct (content_loop_total (loop_fuel lx) false lx) as [e He].
  { unfold loop_fuel. lia. }
  rewrite He. destruct e as [[|] lx'|r lx']; eauto.
Qed.

Lemma length_eqb_0_nil {A : Type} (l : list A) :
  negb (Nat.eqb (List.length l) 0) = false -> l = [].
Proof. destruct l; [reflexivity|discriminate]. Qed.

Lemma length_eqb_0_cons {A : Type} (l : list A) :
  negb (Nat.eqb (List.length l) 0) = true -> l <> [].
Proof. destruct l; [discriminate|]. intros _. discriminate. Qed.

(** A return from the content branch: [pre] is the content advanced over,
    [post] what follows the marked end. *)
Lemma string_content_returned vs sc lx r sc' lx' :
  string_content_branch vs sc lx = Some (Returned r sc' lx') ->
  sc' = sc /\ vs STRING_CONTENT = true /\
  exists pre post,
    input lx = pre ++ post /\
    forallb (fun c => negb (stop_char c)) pre = true /\
    has_opener (pre ++ firstn 1 post) = false /\
    r = negb (Nat.eqb (List.length pre) 0) /\
    ((stop_char (hd NUL post) = true /\ pre <> [] /\
      lx' = {| input := post;
               position := position lx + List.length pre;
               token_end := Some (position lx + List.length pre)%nat;
               result_symbol := symbol STRING_CONTENT |}) \/
     (exists tl,
        post = DOLLAR :: LBRACE :: tl /\
        lx' = {| input := LBRACE :: tl;
                 position := S (position lx + List.length pre);
                 token_end := Some (position lx + List.length pre)%nat;
                 result_symbol := result_symbol lx |})).
Proof.
  unfold string_content_branch.
  destruct (vs STRING_CONTENT); [|discriminate].
  destruct (content_loop (loop_fuel lx) false lx) as [e|] eqn:He;
    [|discriminate].
  apply content_loop_spec in He.
  destruct He as (pre & post & Hsplit & Hpre & Hno & He).
  destruct e as [hc lxb|rr lxr].
  - destruct He as (Ehc & Hst & Ein & Epos & Ers & _).
    destruct hc; [|discriminate].
    intros [= <- <- <-]. repeat split.
    exists pre, post. repeat split; trivial.
    left. split; [assumption|]. split.
    { apply length_eqb_0_cons. now rewrite Ehc. }
    destruct lxb as [inp p te rs]. unfold mark_end, set_result_symbol.
    simpl in *. now subst.
  - destruct He as (Er & tl & Epost & Elx).
    intros [= <- <- <-]. repeat split.
    exists pre, post. repeat split; trivial.
    right. now exists tl.
Qed.

Lemma string_content_fell_through vs sc lx sc' lx' :
  string_content_branch vs sc lx = Some (FellThrough sc' lx') ->
  sc' = sc /\ lx' = lx /\
  (vs STRING_CONTENT = false \/ stop_char (lookahead lx) = true).
Proof.
  unfold string_content_branch.
  destruct (vs STRING_CONTENT); [|intros [= <- <-]; auto].
  destruct (content_loop (loop_fuel lx) false lx) as [e|] eqn:He;
    [|discriminate].
  apply content_loop_spec in He.
  destruct He as (pre & post & Hsplit & Hpre & Hno & He).
  destruct e as [hc lxb|rr lxr]; [|discriminate].
  destruct He as (Ehc & Hst & Ein & Epos & Ers & Hnil).
  destruct hc; [discriminate|].
  intros [= <- <-].
  symmetry in Ehc. apply length_eqb_0_nil in Ehc.
  specialize (Hnil Ehc). subst pre lxb. simpl in Hsplit.
  repeat split. right. unfold lookahead. now rewrite Hsplit.
Qed.

Lemma interpolation_start_skips vs sc lx :
  lookahead lx <> DOLLAR ->
  interpolation_start_branch vs sc lx = FellThrough sc lx.
Proof.
  intros H. apply Z.eqb_neq in H. unfold interpolation_start_branch.
  rewrite H. now destruct (vs STRING_INTERPOLATION_START).
Qed.

Lemma interpolation_end_skips vs sc lx :
  lookahead lx <> RBRACE \/ brace_depth sc <= 0 ->
  interpolation_end_branch vs sc lx = FellThrough sc lx.
Proof.
  intros H. unfold interpolation_end_branch.
  assert (E : (lookahead lx =? RBRACE) && (brace_depth sc >? 0) = false).
  { apply andb_false_iff. destruct H as [H|H].
    - left. now apply Z.eqb_neq.
    - right. rewrite Z.gtb_ltb. now apply Z.ltb_ge. }
  rewrite E. now destruct (vs STRING_INTERPOLATION_END).
Qed.

Lemma string_content_stops vs sc lx :
  stop_char (lookahead lx) = true ->
  string_content_branch vs sc lx = Some (FellThrough sc lx).
Proof.
  intros H. unfold string_content_branch, loop_fuel. simpl.
  unfold stop_char in H.
  destruct ((lookahead lx =? DQUOTE) || (lookahead lx =? NUL)).
  - now destruct (vs STRING_CONTENT).
  - simpl in H. rewrite H. now destruct (vs STRING_CONTENT).
Qed.

(** scan always returns. *)
Lemma scan_total sc lx vs : exists r sc' lx', scan sc lx vs = Some (r, sc', lx').
Proof.
  unfold tree_sitter_neon_external_scanner_scan.
  destruct (interpolation_start_branch vs sc lx) as [r sc' lx'|sc1 lx1];
    [eauto|].
  destruct (interpolation_end_branch vs sc1 lx1) as [r sc' lx'|sc2 lx2];
    [eauto|].
  destruct (string_content_total vs sc2 lx2) as [b Hb]. rewrite Hb.
  destruct b; eauto.
Qed.

(** Case analysis on a call of scan: on a goal [scan sc lx vs = Some _ -> _]
    it leaves one goal per way the call can end, with the facts about the
    branches taken in the context. *)
Ltac scan_inversion :=
  let Hs := fresh "Hstart" in
  let He := fresh "Hend" in
  let Hc := fresh "Hcontent" in
  let rS := fresh "rS" in let scS := fresh "scS" in let lxS := fresh "lxS" in
  let sc1 := fresh "sc1" in let lx1 := fresh "lx1" in
  let rE := fresh "rE" in let scE := fresh "scE" in let lxE := fresh "lxE" in
  let sc2 := fresh "sc2" in let lx2 := fresh "lx2" in
  let rC := fresh "rC" in let scC := fresh "scC" in let lxC := fresh "lxC" in
  let sc3 := fresh "sc3" in let lx3 := fresh "lx3" in
  unfold tree_sitter_neon_external_scanner_scan;
  destruct (interpolation_start_branch _ _ _) as [rS scS lxS|sc1 lx1] eqn:Hs;
  [ apply interpolation_start_returned in Hs
  | apply interpolation_start_fell_through in Hs;
    destruct (interpolation_end_branch _ _ _) as [rE scE lxE|sc2 lx2] eqn:He;
    [ apply interpolation_end_returned in He
    | apply interpolation_end_fell_through in He;
      destruct (string_content_branch _ _ _)
        as [[rC scC lxC|sc3 lx3]|] eqn:Hc;
      [ apply string_content_returned in Hc
      | apply string_content_fell_through in Hc
      | discriminate ] ] ].

(** ** Declined scans *)

(** C1 (as amended).  A declined scan changes neither the scanner state nor
    the result slot, and it leaves the cursor exactly as it was when the
    character under it is not [$].  When it is [$] the advance made to peek
    behind it is not taken back: the cursor ends at most two characters
    further, having passed only [$] characters. *)
Theorem scan_decline_cursor sc lx vs sc' lx' :
  scan sc lx vs = Some (false, sc', lx') ->
  sc' = sc /\
  result_symbol lx' = result_symbol lx /\
  (lookahead lx <> DOLLAR -> lx' = lx) /\
  exists k,
    (k <= 2)%nat /\
    position lx' = (position lx + k)%nat /\
    input lx = repeat DOLLAR k ++ input lx'.
Proof.
  scan_inversion.
  - destruct Hstart as (-> & _). discriminate.
  - destruct Hend as (-> & _). discriminate.
  - (* the return inside the loop, with no content *)
    destruct Hstart as (-> & Hstart). destruct Hend as (-> & -> & _).
    destruct Hcontent as (-> & _ & pre & post & Hsplit & _ & _ & Hr & Hexit).
    intros [= -> <- <-]. symmetry in Hr. apply length_eqb_0_nil in Hr. subst pre.
    destruct Hexit as [(_ & Hne & _)|(tl & -> & ->)]; [now elim Hne|].
    simpl in Hsplit. split; [reflexivity|].
    destruct Hstart as [(-> & _)|(_ & rest & Hin & _ & ->)].
    + simpl. repeat split.
      * unfold lookahead. rewrite Hsplit. intros H. now elim H.
      * exists 1%nat. rewrite Hsplit. simpl. repeat split; lia.
    + simpl in *. subst rest. repeat split.
      * unfold lookahead. rewrite Hin. intros H. now elim H.
      * exists 2%nat. rewrite Hin. simpl. repeat split; lia.
  - (* falling out of the last branch *)
    destruct Hstart as (-> & Hstart). destruct Hend as (-> & -> & _).
    destruct Hcontent as (-> & -> & _).
    intros [= <- <-]. split; [reflexivity|].
    destruct Hstart as [(-> & _)|(_ & rest & Hin & _ & ->)].
    + repeat split. exists 0%nat. simpl. repeat split; lia.
    + simpl. repeat split.
      * unfold lookahead. rewrite Hin. intros H. now elim H.
      * exists 1%nat. rewrite Hin. simpl. repeat split; lia.
Qed.

Lemma scan_decline_cursor_witness :
  let lx := lexer_at "$${" in
  let vs := accepts [STRING_CONTENT; STRING_INTERPOLATION_START] in
  let sc := {| brace_depth := 1 |} in
  let lx' := {| input := [LBRACE]; position := 2; token_end := Some 1%nat;
                result_symbol := 0 |} in
  scan sc lx vs = Some (false, sc, lx') /\
  (sc = sc /\
   result_symbol lx' = result_symbol lx /\
   (lookahead lx <> DOLLAR -> lx' = lx) /\
   exists k,
     (k <= 2)%nat /\
     position lx' = (position lx + k)%nat /\
     input lx = repeat DOLLAR k ++ input lx').
Proof.
  intros lx vs sc lx'. split; [reflexivity|].
  apply (scan_decline_cursor sc lx vs sc lx'). reflexivity.
Defined.

(** C1 as stated fails.  With only the content kind accepted and the cursor
    before [${], the scan declines, and the cursor is left behind the [$]. *)
Lemma scan_decline_moves_cursor :
  let lx := lexer_at "${" in
  let lx' := {| input := [LBRACE]; position := 1; token_end := Some 0%nat;
                result_symbol := 0 |} in
  scan {| brace_depth := 0 |} lx (accepts [STRING_CONTENT])
  = Some (false, {| brace_depth := 0 |}, lx') /\
  position lx' <> position lx /\ input lx' <> input lx.
Proof. repeat split; simpl; discriminate. Qed.

(** ** The InterpolationOpen branch *)

(** C2 (as amended).  When the branch is enabled, the next character is [$]
    and the one after it is not [{], the branch falls through having
    advanced the cursor over the [$]: the cursor is one character further
    and is not moved back, while the scanner state, the marked end and the
    result slot are untouched. *)
Theorem interpolation_start_lone_dollar vs sc lx :
  vs STRING_INTERPOLATION_START = true ->
  lookahead lx = DOLLAR ->
  lookahead (advance lx) <> LBRACE ->
  interpolation_start_branch vs sc lx = FellThrough sc (advance lx) /\
  position (advance lx) = S (position lx) /\
  input lx = DOLLAR :: input (advance lx) /\
  token_end (advance lx) = token_end lx /\
  result_symbol (advance lx) = result_symbol lx.
Proof.
  intros Hvs Hd Hb. split.
  - unfold interpolation_start_branch. rewrite Hvs, Hd.
    apply Z.eqb_neq in Hb. rewrite Hb. reflexivity.
  - destruct (lookahead_not_nul lx) as [rest Hin].
    { rewrite Hd. discriminate. }
    unfold advance. rewrite Hin, Hd. simpl. auto.
Qed.

Lemma interpolation_start_lone_dollar_witness :
  let lx := lexer_at "$x" in
  let vs := accepts [STRING_INTERPOLATION_START] in
  let sc := {| brace_depth := 0 |} in
  interpolation_start_branch vs sc lx = FellThrough sc (advance lx) /\
  position (advance lx) = S (position lx) /\
  input lx = DOLLAR :: input (advance lx) /\
  token_end (advance lx) = token_end lx /\
  result_symbol (advance lx) = result_symbol lx.
Proof.
  intros lx vs sc.
  apply (interpolation_start_lone_dollar vs sc lx).
  - reflexivity.
  - reflexivity.
  - simpl. discriminate.
Defined.

(** C2 as stated fails.  On [$x] the branch falls through with the cursor
    behind the [$], not at the position where the [$] was examined. *)
Lemma interpolation_start_keeps_dollar_consumed :
  let lx := lexer_at "$x" in
  let lx1 := {| input := codes "x"; position := 1; token_end := None;
                result_symbol := 0 |} in
  interpolation_start_branch (accepts [STRING_INTERPOLATION_START])
    {| brace_depth := 0 |} lx
  = FellThrough {| brace_depth := 0 |} lx1 /\
  position lx1 <> position lx /\ input lx1 <> input lx.
Proof. repeat split; simpl; discriminate. Qed.

(** C10.  With the InterpolationOpen kind accepted and [$] then [{] under
    the cursor, scan succeeds whatever the depth was before: it consumes the
    two characters, marks the end behind them, reports the kind, and leaves
    the depth at exactly 1. *)
Theorem scan_interpolation_start sc lx vs tl :
  vs STRING_INTERPOLATION_START = true ->
  input lx = DOLLAR :: LBRACE :: tl ->
  scan sc lx vs
  = Some (true, {| brace_depth := 1 |},
          {| input := tl; position := S (S (position lx));
             token_end := Some (S (S (position lx)));
             result_symbol := symbol STRING_INTERPOLATION_START |}).
Proof.
  intros Hvs Hin.
  unfold tree_sitter_neon_external_scanner_scan, interpolation_start_branch.
  rewrite Hvs. unfold lookahead, advance. rewrite Hin. simpl. reflexivity.
Qed.

Lemma scan_interpolation_start_witness :
  scan {| brace_depth := 1 |} (lexer_at "${b}")
       (accepts [STRING_CONTENT; STRING_INTERPOLATION_START])
  = Some (true, {| brace_depth := 1 |},
          {| input := codes "b}"; position := 2; token_end := Some 2%nat;
             result_symbol := symbol STRING_INTERPOLATION_START |}).
Proof.
  apply (scan_interpolation_start {| brace_depth := 1 |} (lexer_at "${b}")
           (accepts [STRING_CONTENT; STRING_INTERPOLATION_START]) (codes "b}"));
    reflexivity.
Defined.

(** C9.  On [x$y] followed by the closing quote, with the content kind
    accepted, whatever else is accepted and whatever follows the quote, scan
    emits one content token whose committed span is [x$y]; the cursor stops
    before the quote. *)
Theorem scan_dollar_without_brace sc vs p te rs tail :
  vs STRING_CONTENT = true ->
  let lx := {| input := codes "x$y" ++ DQUOTE :: tail; position := p;
               token_end := te; result_symbol := rs |} in
  let lx' := {| input := DQUOTE :: tail; position := 3 + p;
                token_end := Some (3 + p)%nat;
                result_symbol := symbol STRING_CONTENT |} in
  scan sc lx vs = Some (true, sc, lx') /\
  committed_span lx lx' = Some (codes "x$y").
Proof.
  intros Hvs lx lx'. split.
  - unfold tree_sitter_neon_external_scanner_scan, interpolation_start_branch,
      interpolation_end_branch, string_content_branch.
    rewrite Hvs.
    destruct (vs STRING_INTERPOLATION_START), (vs STRING_INTERPOLATION_END);
      reflexivity.
  - unfold committed_span, lx, lx'. cbn [token_end position input].
    replace (3 + p - p)%nat with 3%nat by lia. reflexivity.
Qed.

Lemma scan_dollar_without_brace_witness :
  let lx := {| input := codes "x$y" ++ [DQUOTE]; position := 0;
               token_end := None; result_symbol := 0 |} in
  let lx' := {| input := [DQUOTE]; position := 3; token_end := Some 3%nat;
                result_symbol := symbol STRING_CONTENT |} in
  scan {| brace_depth := 0 |} lx (accepts [STRING_CONTENT])
  = Some (true, {| brace_depth := 0 |}, lx') /\
  committed_span lx lx' = Some (codes "x$y").
Proof.
  apply (scan_dollar_without_brace {| brace_depth := 0 |}
           (accepts [STRING_CONTENT]) 0%nat None 0 []).
  reflexivity.
Defined.

(** ** Spans *)

Lemma firstn_length_app {A : Type} (l1 l2 : list A) (p : nat) :
  firstn (p + List.length l1 - p) (l1 ++ l2) = l1.
Proof.
  replace (p + List.length l1 - p)%nat with (List.length l1) by lia.
  induction l1 as [|a l1 IH]; simpl; [reflexivity|]. now rewrite IH.
Qed.

Lemma skipn_length_app {A : Type} (l1 l2 : list A) (p : nat) :
  skipn (p + List.length l1 - p) (l1 ++ l2) = l2.
Proof.
  replace (p + List.length l1 - p)%nat with (List.length l1) by lia.
  induction l1 as [|a l1 IH]; simpl; [reflexivity|]. exact IH.
Qed.

Lemma text_run_app (pre post : list Z) :
  forallb (fun c => negb (stop_char c)) pre = true ->
  has_opener (pre ++ firstn 1 post) = false ->
  stop_char (hd NUL post) = true \/
  (exists tl, post = DOLLAR :: LBRACE :: tl) ->
  text_run (pre ++ post) = pre.
Proof.
  induction pre as [|c pre IH]; intros Hpre Hno Hpost.
  - simpl. destruct Hpost as [Hst|(tl & ->)]; [|reflexivity].
    destruct post as [|c post]; [reflexivity|].
    simpl in *. now rewrite Hst.
  - cbn [forallb] in Hpre. apply andb_prop in Hpre. destruct Hpre as [Hc Hpre].
    apply negb_true_iff in Hc.
    cbn [app has_opener] in Hno. apply orb_false_elim in Hno.
    destruct Hno as [Hhere Hno]. rewrite hd_app_firstn in Hhere.
    cbn [app text_run]. rewrite Hc, Hhere, IH; trivial.
Qed.

Lemma text_run_stop (l : list Z) :
  stop_char (hd NUL l) = true -> text_run l = [].
Proof.
  destruct l as [|c l]; [reflexivity|]. simpl. intros H. now rewrite H.
Qed.

Lemma skipn_length_exact {A : Type} (l1 l2 : list A) :
  skipn (List.length l1) (l1 ++ l2) = l2.
Proof. induction l1 as [|a l1 IH]; simpl; [reflexivity|]. exact IH. Qed.

Lemma stop_char_not_dollar (c : Z) : stop_char c = true -> c <> DOLLAR.
Proof. intros H ->. discriminate H. Qed.

(** The shape of every successful scan that reports the content kind:
    [span] is what was committed and [rest] what is left for the next
    token. *)
Lemma scan_content_shape sc lx vs sc' lx' :
  scan sc lx vs = Some (true, sc', lx') ->
  result_symbol lx' = symbol STRING_CONTENT ->
  sc' = sc /\
  exists span rest,
    input lx = span ++ rest /\
    token_end lx' = Some (position lx + List.length span)%nat /\
    span <> [] /\
    forallb (fun c => negb (stop_char c)) span = true /\
    has_opener (span ++ firstn 1 rest) = false /\
    ((stop_char (hd NUL rest) = true /\ input lx' = rest /\
      position lx' = (position lx + List.length span)%nat) \/
     (exists tl, rest = DOLLAR :: LBRACE :: tl /\ input lx' = LBRACE :: tl /\
                 position lx' = S (position lx + List.length span))).
Proof.
  scan_inversion.
  - destruct Hstart as (_ & _ & _ & tl & _ & ->).
    intros [= _ _ <-]. discriminate.
  - destruct Hend as (_ & _ & _ & _ & tl & _ & ->).
    intros [= _ _ <-]. discriminate.
  - destruct Hstart as (-> & Hstart). destruct Hend as (-> & -> & _).
    destruct Hcontent as (-> & _ & pre & post & Hsplit & Hpre & Hno & -> & Hexit).
    intros [= Hr <- <-] Hsym. split; [reflexivity|].
    apply length_eqb_0_cons in Hr.
    assert (Hexit' :
      token_end lxC = Some (position lx1 + List.length pre)%nat /\
      ((stop_char (hd NUL post) = true /\ input lxC = post /\
        position lxC = (position lx1 + List.length pre)%nat) \/
       (exists tl, post = DOLLAR :: LBRACE :: tl /\ input lxC = LBRACE :: tl /\
                   position lxC = S (position lx1 + List.length pre)))).
    { destruct Hexit as [(Hst & _ & ->)|(tl & -> & ->)]; simpl.
      - split; [reflexivity|]. left. auto.
      - split; [reflexivity|]. right. exists tl. auto. }
    clear Hexit. destruct Hexit' as (Hte & Hexit).
    destruct Hstart as [(-> & _)|(_ & rest0 & Hin & Hnb & ->)].
    + exists pre, post. repeat split; assumption.
    + simpl in Hsplit, Hte, Hexit. exists (DOLLAR :: pre), post.
      rewrite Hin, Hsplit. cbn [List.length app].
      replace (position lx + S (List.length pre))%nat
        with (S (position lx + List.length pre)) by lia.
      repeat split; try assumption; try discriminate.
      cbn [has_opener]. rewrite hd_app_firstn, <- Hsplit, Hno.
      apply Z.eqb_neq in Hnb. rewrite Hnb. reflexivity.
  - intros [=].
Qed.

(** ** Content runs *)

(** C6 (as amended).  When scan emits a content token, the committed span
    holds no [$] immediately followed by [{], also not across its end.  When
    the run was stopped at a [$], that [$] and the [{] behind it are both
    left outside the committed span, at the marked end; the cursor however
    has advanced over the [$] to peek and is not moved back: it stands on
    the [{], one character behind the marked end.  When the run was stopped
    otherwise, the cursor stands at the marked end. *)
Theorem scan_content_excludes_opener sc lx vs sc' lx' :
  scan sc lx vs = Some (true, sc', lx') ->
  result_symbol lx' = symbol STRING_CONTENT ->
  exists span rest,
    committed_span lx lx' = Some span /\
    uncommitted lx lx' = Some rest /\
    input lx = span ++ rest /\
    has_opener (span ++ firstn 1 rest) = false /\
    (hd NUL rest = DOLLAR ->
     exists tl,
       rest = DOLLAR :: LBRACE :: tl /\
       input lx' = LBRACE :: tl /\
       position lx' = S (position lx + List.length span)) /\
    (hd NUL rest <> DOLLAR ->
     input lx' = rest /\
     position lx' = (position lx + List.length span)%nat).
Proof.
  intros Hscan Hsym.
  destruct (scan_content_shape _ _ _ _ _ Hscan Hsym)
    as (_ & span & rest & Hin & Hte & _ & _ & Hno & Hexit).
  exists span, rest. unfold committed_span, uncommitted. rewrite Hte, Hin.
  rewrite firstn_length_app, skipn_length_app. repeat split; trivial.
  - intros Hd. destruct Hexit as [(Hst & _)|(tl & -> & Hi & Hp)].
    + apply stop_char_not_dollar in Hst. contradiction.
    + now exists tl.
  - destruct Hexit as [(_ & Hi & _)|(tl & -> & _)]; [exact Hi|].
    now elim H.
  - destruct Hexit as [(_ & _ & Hp)|(tl & -> & _)]; [exact Hp|].
    now elim H.
Qed.

Lemma scan_content_excludes_opener_witness :
  let lx := lexer_at "a$b${c}" in
  let lx' := {| input := codes "{c}"; position := 4; token_end := Some 3%nat;
                result_symbol := 0 |} in
  exists span rest,
    committed_span lx lx' = Some span /\
    uncommitted lx lx' = Some rest /\
    input lx = span ++ rest /\
    has_opener (span ++ firstn 1 rest) = false /\
    (hd NUL rest = DOLLAR ->
     exists tl,
       rest = DOLLAR :: LBRACE :: tl /\
       input lx' = LBRACE :: tl /\
       position lx' = S (position lx + List.length span)) /\
    (hd NUL rest <> DOLLAR ->
     input lx' = rest /\
     position lx' = (position lx + List.length span)%nat).
Proof.
  intros lx lx'.
  apply (scan_content_excludes_opener {| brace_depth := 0 |} lx
           (accepts [STRING_CONTENT; STRING_INTERPOLATION_START])
           {| brace_depth := 0 |} lx');
    reflexivity.
Defined.

(** C6 as stated fails.  On [a] [$] [{] the content token is [a] and the
    [$] and [{] are outside of it, but the [$] is not left unconsumed: the
    cursor has advanced over it and stands on the [{], behind the marked
    end. *)
Lemma scan_content_peek_consumes_dollar :
  let lx := lexer_at "a${" in
  let lx' := {| input := [LBRACE]; position := 2; token_end := Some 1%nat;
                result_symbol := symbol STRING_CONTENT |} in
  scan {| brace_depth := 0 |} lx (accepts [STRING_CONTENT])
  = Some (true, {| brace_depth := 0 |}, lx') /\
  committed_span lx lx' = Some (codes "a") /\
  uncommitted lx lx' = Some [DOLLAR; LBRACE] /\
  input lx' <> [DOLLAR; LBRACE] /\
  token_end lx' <> Some (position lx').
Proof. repeat split; simpl; discriminate. Qed.

(** C8.  With the content kind accepted: (1) an emitted content token has a
    non-empty committed span free of the quote, the end-of-input sentinel
    and the backslash, and when the run was stopped by one of those the
    cursor stands right before it; (2) with one of those under the cursor
    at entry nothing was accumulated and scan declines, leaving scanner and
    cursor as they were; (3) right before [$] [{] scan emits the
    InterpolationOpen token when that kind is accepted too, and declines
    when it is not: in neither case an empty content token. *)
Theorem scan_content_stop_and_decline sc lx vs :
  vs STRING_CONTENT = true ->
  (forall sc' lx',
     scan sc lx vs = Some (true, sc', lx') ->
     result_symbol lx' = symbol STRING_CONTENT ->
     exists span rest,
       committed_span lx lx' = Some span /\
       input lx = span ++ rest /\
       span <> [] /\
       forallb (fun c => negb (stop_char c)) span = true /\
       ((stop_char (hd NUL rest) = true /\ input lx' = rest) \/
        (exists tl, rest = DOLLAR :: LBRACE :: tl))) /\
  (stop_char (lookahead lx) = true -> scan sc lx vs = Some (false, sc, lx)) /\
  (forall tl,
     input lx = DOLLAR :: LBRACE :: tl ->
     scan sc lx vs =
     if vs STRING_INTERPOLATION_START then
       Some (true, {| brace_depth := 1 |},
             {| input := tl; position := S (S (position lx));
                token_end := Some (S (S (position lx)));
                result_symbol := symbol STRING_INTERPOLATION_START |})
     else
       Some (false, sc,
             {| input := LBRACE :: tl; position := S (position lx);
                token_end := Some (position lx);
                result_symbol := result_symbol lx |})).
Proof.
  intros Hvs. split; [|split].
  - intros sc' lx' Hscan Hsym.
    destruct (scan_content_shape _ _ _ _ _ Hscan Hsym)
      as (_ & span & rest & Hin & Hte & Hne & Hspan & _ & Hexit).
    exists span, rest. unfold committed_span. rewrite Hte, Hin.
    rewrite firstn_length_app. repeat split; trivial.
    destruct Hexit as [(Hst & Hi & _)|(tl & -> & _)]; [left|right]; eauto.
  - intros Hst.
    unfold tree_sitter_neon_external_scanner_scan.
    rewrite interpolation_start_skips by now apply stop_char_not_dollar.
    rewrite interpolation_end_skips.
    + now rewrite string_content_stops.
    + left. intros E. rewrite E in Hst. discriminate Hst.
  - intros tl Hin.
    destruct lx as [inp p te rs]. simpl in Hin. subst inp.
    unfold tree_sitter_neon_external_scanner_scan, interpolation_start_branch,
      interpolation_end_branch, string_content_branch.
    rewrite Hvs.
    destruct (vs STRING_INTERPOLATION_START); [reflexivity|].
    destruct (vs STRING_INTERPOLATION_END); reflexivity.
Qed.

Lemma scan_content_stop_and_decline_witness :
  let vs := accepts [STRING_CONTENT; STRING_INTERPOLATION_START] in
  let sc := {| brace_depth := 0 |} in
  let text := {| input := codes "ab" ++ [BACKSLASH; code "n"]; position := 0;
                 token_end := None; result_symbol := 0 |} in
  let text' := {| input := [BACKSLASH; code "n"]; position := 2;
                  token_end := Some 2%nat;
                  result_symbol := symbol STRING_CONTENT |} in
  let quote := {| input := [DQUOTE]; position := 7; token_end := None;
                  result_symbol := 0 |} in
  (exists span rest,
     committed_span text text' = Some span /\
     input text = span ++ rest /\
     span <> [] /\
     forallb (fun c => negb (stop_char c)) span = true /\
     ((stop_char (hd NUL rest) = true /\ input text' = rest) \/
      (exists tl, rest = DOLLAR :: LBRACE :: tl))) /\
  scan sc quote vs = Some (false, sc, quote) /\
  scan sc (lexer_at "${b}") vs =
  Some (true, {| brace_depth := 1 |},
        {| input := codes "b}"; position := 2; token_end := Some 2%nat;
           result_symbol := symbol STRING_INTERPOLATION_START |}).
Proof.
  intros vs sc text text' quote. split; [|split].
  - apply (proj1 (scan_content_stop_and_decline sc text vs eq_refl) sc text');
      reflexivity.
  - apply (proj1 (proj2 (scan_content_stop_and_decline sc quote vs eq_refl))).
    reflexivity.
  - exact (proj2 (proj2 (scan_content_stop_and_decline sc (lexer_at "${b}") vs
                           eq_refl))
             (codes "b}") eq_refl).
Defined.

(** ** The InterpolationClose branch *)

(** C5 (as amended).  With the InterpolationClose kind accepted: (1) on [}]
    with a positive depth, scan emits InterpolationClose, consumes exactly
    that character, marks the end behind it and sets the depth to 0; (2) on
    [}] with a depth that is not positive, scan leaves the [}] and declines
    when the content kind is not accepted, and otherwise the content branch
    takes the [}] as ordinary content: scan returns true with the scanner
    state kept, the committed span is the content run of the text, which
    starts with the [}], and the result slot holds the content kind, or
    what it held at entry when the run was stopped at [$] [{]; (3) when the
    character under the cursor is not [$] and the result slot does not
    already hold InterpolationClose, that kind is reported only on [}] with
    a positive depth. *)
Theorem scan_interpolation_end sc lx vs :
  vs STRING_INTERPOLATION_END = true ->
  (forall rest,
     input lx = RBRACE :: rest -> brace_depth sc > 0 ->
     let lx' := {| input := rest; position := S (position lx);
                   token_end := Some (S (position lx));
                   result_symbol := symbol STRING_INTERPOLATION_END |} in
     scan sc lx vs = Some (true, {| brace_depth := 0 |}, lx') /\
     committed_span lx lx' = Some [RBRACE]) /\
  (lookahead lx = RBRACE -> brace_depth sc <= 0 ->
   (vs STRING_CONTENT = false -> scan sc lx vs = Some (false, sc, lx)) /\
   (vs STRING_CONTENT = true ->
    exists lx',
      scan sc lx vs = Some (true, sc, lx') /\
      committed_span lx lx' = Some (text_run (input lx)) /\
      hd NUL (text_run (input lx)) = RBRACE /\
      result_symbol lx'
      = (if hd NUL (skipn (List.length (text_run (input lx))) (input lx))
            =? DOLLAR
         then result_symbol lx else symbol STRING_CONTENT) /\
      (position lx < position lx')%nat)) /\
  (lookahead lx <> DOLLAR ->
   result_symbol lx <> symbol STRING_INTERPOLATION_END ->
   forall sc' lx',
     scan sc lx vs = Some (true, sc', lx') ->
     result_symbol lx' = symbol STRING_INTERPOLATION_END ->
     lookahead lx = RBRACE /\ brace_depth sc > 0).
Proof.
  intros Hvs. split; [|split].
  - intros rest Hin Hpos lx'. split.
    + destruct lx as [inp p te rs]. simpl in Hin. subst inp.
      unfold tree_sitter_neon_external_scanner_scan,
        interpolation_start_branch, interpolation_end_branch.
      rewrite Hvs. apply Z.gtb_gt in Hpos.
      destruct (vs STRING_INTERPOLATION_START); simpl; rewrite Hpos;
        reflexivity.
    + unfold committed_span, lx'. cbn [token_end]. rewrite Hin.
      replace (S (position lx) - position lx)%nat with 1%nat by lia.
      reflexivity.
  - intros Hla Hdepth.
    assert (Hstart : interpolation_start_branch vs sc lx = FellThrough sc lx).
    { apply interpolation_start_skips. rewrite Hla. discriminate. }
    assert (Hend : interpolation_end_branch vs sc lx = FellThrough sc lx).
    { apply interpolation_end_skips. now right. }
    unfold tree_sitter_neon_external_scanner_scan. rewrite Hstart, Hend.
    split; intros Hc.
    + unfold string_content_branch. rewrite Hc. reflexivity.
    + destruct (string_content_total vs sc lx) as [b Hb]. rewrite Hb.
      destruct b as [r sc' lx'|sc' lx'].
      * apply string_content_returned in Hb.
        destruct Hb as (-> & _ & pre & post & Hsplit & Hpre & Hno & -> & Hexit).
        unfold lookahead in Hla.
        assert (Hrun : text_run (input lx) = pre).
        { rewrite Hsplit. apply text_run_app; trivial.
          destruct Hexit as [(Hst & _)|(tl & -> & _)]; [now left|right; eauto]. }
        destruct pre as [|c pre].
        { simpl in Hsplit. rewrite Hsplit in Hla.
          destruct Hexit as [(_ & Hne & _)|(tl & -> & _)];
            [now elim Hne | discriminate Hla]. }
        rewrite Hrun, Hsplit, skipn_length_exact.
        rewrite Hsplit in Hla. simpl in Hla.
        exists lx'. split; [reflexivity|].
        unfold committed_span.
        destruct Hexit as [(Hst & _ & ->)|(tl & -> & ->)];
          cbn [token_end result_symbol position];
          rewrite Hsplit, firstn_length_app;
          repeat split; trivial; try (simpl; lia).
        apply stop_char_not_dollar in Hst. apply Z.eqb_neq in Hst.
        now rewrite Hst.
      * apply string_content_fell_through in Hb.
        destruct Hb as (_ & _ & [Hb|Hb]); [congruence|].
        rewrite Hla in Hb. discriminate Hb.
  - intros Hnd Hslot sc' lx'. scan_inversion.
    + destruct Hstart as (_ & _ & _ & tl & _ & ->).
      intros [= _ _ <-]. discriminate.
    + destruct Hstart as (-> & [(-> & _)|(_ & rest0 & Hin & _)]).
      * destruct Hend as (_ & _ & _ & Hpos & tl & Hin & _).
        intros _ _. unfold lookahead. rewrite Hin. auto.
      * unfold lookahead in Hnd. rewrite Hin in Hnd. now elim Hnd.
    + destruct Hstart as (-> & [(-> & _)|(_ & rest0 & Hin & _)]).
      * destruct Hend as (-> & -> & _).
        destruct Hcontent as (_ & _ & pre & post & _ & _ & _ & _ & Hexit).
        intros [= _ _ <-] Hsym.
        destruct Hexit as [(_ & _ & ->)|(tl & _ & ->)]; simpl in Hsym.
        -- discriminate Hsym.
        -- contradiction.
      * unfold lookahead in Hnd. rewrite Hin in Hnd. now elim Hnd.
    + intros [=].
Qed.

Lemma scan_interpolation_end_witness :
  let vs := accepts [STRING_INTERPOLATION_END] in
  let vs2 := accepts [STRING_INTERPOLATION_END; STRING_CONTENT] in
  let lx := lexer_at "}c" in
  let lx' := {| input := codes "c"; position := 1; token_end := Some 1%nat;
                result_symbol := symbol STRING_INTERPOLATION_END |} in
  (scan {| brace_depth := 1 |} lx vs = Some (true, {| brace_depth := 0 |}, lx') /\
   committed_span lx lx' = Some [RBRACE]) /\
  scan {| brace_depth := 0 |} lx vs = Some (false, {| brace_depth := 0 |}, lx) /\
  (exists lx2,
     scan {| brace_depth := 0 |} lx vs2 = Some (true, {| brace_depth := 0 |}, lx2) /\
     committed_span lx lx2 = Some (text_run (input lx)) /\
     hd NUL (text_run (input lx)) = RBRACE /\
     result_symbol lx2
     = (if hd NUL (skipn (List.length (text_run (input lx))) (input lx))
           =? DOLLAR
        then result_symbol lx else symbol STRING_CONTENT) /\
     (position lx < position lx2)%nat) /\
  (lookahead lx = RBRACE /\ brace_depth {| brace_depth := 1 |} > 0).
Proof.
  intros vs vs2 lx lx'. split; [|split; [|split]].
  - apply (proj1 (scan_interpolation_end {| brace_depth := 1 |} lx vs eq_refl)
             (codes "c")).
    + reflexivity.
    + simpl. lia.
  - apply (proj1 (proj2 (scan_interpolation_end {| brace_depth := 0 |} lx vs
                           eq_refl))).
    + reflexivity.
    + simpl. lia.
    + reflexivity.
  - apply (proj1 (proj2 (scan_interpolation_end {| brace_depth := 0 |} lx vs2
                           eq_refl))).
    + reflexivity.
    + simpl. lia.
    + reflexivity.
  - apply (proj2 (proj2 (scan_interpolation_end {| brace_depth := 1 |} lx vs
                           eq_refl))) with (sc' := {| brace_depth := 0 |})
                                           (lx' := lx').
    + simpl. discriminate.
    + simpl. discriminate.
    + reflexivity.
    + reflexivity.
Defined.

(** C5 as stated fails.  With a depth of 0 and both the InterpolationClose
    and the content kind accepted, scan does not decline on [}]: the [}] is
    consumed as the content of a token. *)
Lemma scan_stray_brace_taken_as_content :
  let lx := {| input := [RBRACE; DQUOTE]; position := 0; token_end := None;
               result_symbol := 0 |} in
  let lx' := {| input := [DQUOTE]; position := 1; token_end := Some 1%nat;
                result_symbol := symbol STRING_CONTENT |} in
  scan {| brace_depth := 0 |} lx
       (accepts [STRING_INTERPOLATION_END; STRING_CONTENT])
  = Some (true, {| brace_depth := 0 |}, lx') /\
  committed_span lx lx' = Some [RBRACE].
Proof. split; reflexivity. Qed.

(** ** The state codec *)

Lemma Z_of_byte_range (b : byte) : 0 <= Z_of_byte b < 256.
Proof.
  unfold Z_of_byte. pose proof (Byte.to_N_bounded b). lia.
Qed.

Lemma Z_of_byte_of_Z (z : Z) : Z_of_byte (byte_of_Z z) = z mod 256.
Proof.
  unfold Z_of_byte, byte_of_Z.
  pose proof (Z.mod_pos_bound z 256 ltac:(lia)) as Hm.
  destruct (Byte.of_N (Z.to_N (z mod 256))) as [b|] eqn:E.
  - apply Byte.to_of_N in E. rewrite E. lia.
  - apply Byte.of_N_None_iff in E. lia.
Qed.

Lemma byte_of_Z_of_byte (b : byte) : byte_of_Z (Z_of_byte b) = b.
Proof.
  unfold byte_of_Z. pose proof (Z_of_byte_range b) as Hr.
  rewrite Z.mod_small by exact Hr.
  unfold Z_of_byte. rewrite N2Z.id, Byte.of_to_N. reflexivity.
Qed.

Lemma le_bytes_length (n : nat) : forall u, List.length (le_bytes n u) = n.
Proof. induction n as [|n IH]; intros u; simpl; [reflexivity|]. now rewrite IH. Qed.

Lemma le_value_range (bs : list byte) :
  0 <= le_value bs < 256 ^ Z.of_nat (List.length bs).
Proof.
  induction bs as [|b bs IH]; [simpl; lia|].
  cbn [le_value List.length]. rewrite Nat2Z.inj_succ, Z.pow_succ_r by lia.
  pose proof (Z_of_byte_range b). lia.
Qed.

Lemma le_value_le_bytes (n : nat) :
  forall u, le_value (le_bytes n u) = u mod 256 ^ Z.of_nat n.
Proof.
  induction n as [|n IH]; intros u.
  - simpl. now rewrite Z.mod_1_r.
  - cbn [le_bytes le_value]. rewrite Z_of_byte_of_Z, IH.
    rewrite Nat2Z.inj_succ, Z.pow_succ_r by lia.
    rewrite Z.rem_mul_r by lia. reflexivity.
Qed.

Lemma le_bytes_le_value (bs : list byte) :
  le_bytes (List.length bs) (le_value bs) = bs.
Proof.
  induction bs as [|b bs IH]; [reflexivity|].
  cbn [List.length le_bytes le_value].
  pose proof (Z_of_byte_range b) as Hb.
  f_equal.
  - rewrite <- (byte_of_Z_of_byte b) at 2.
    unfold byte_of_Z.
    replace ((Z_of_byte b + 256 * le_value bs) mod 256)
      with (Z_of_byte b mod 256); [reflexivity|].
    rewrite (Z.mul_comm 256), Z.mod_add by lia. reflexivity.
  - rewrite Z.add_comm, Z.mul_comm, Z.div_add_l by lia.
    rewrite Z.div_small by exact Hb. rewrite Z.add_0_r. exact IH.
Qed.

Lemma int_modulus_eq : int_modulus = 256 ^ Z.of_nat sizeof_int.
Proof. reflexivity. Qed.

(** Reading back what was written gives the value, for every value of the
    range of [int]. *)
Lemma int_of_bytes_to_bytes (big_endian : bool) (v : Z) :
  - (int_modulus / 2) <= v < int_modulus / 2 ->
  int_of_bytes big_endian (int_to_bytes big_endian v) = v.
Proof.
  intros Hv. unfold int_of_bytes, int_to_bytes.
  assert (E : (if big_endian
               then rev (if big_endian
                         then rev (le_bytes sizeof_int (v mod int_modulus))
                         else le_bytes sizeof_int (v mod int_modulus))
               else (if big_endian
                     then rev (le_bytes sizeof_int (v mod int_modulus))
                     else le_bytes sizeof_int (v mod int_modulus)))
              = le_bytes sizeof_int (v mod int_modulus)).
  { destruct big_endian; [apply rev_involutive|reflexivity]. }
  rewrite E, le_value_le_bytes, <- int_modulus_eq, Z.mod_mod
    by (change int_modulus with 4294967296; lia).
  change int_modulus with 4294967296 in *.
  change (4294967296 / 2) with 2147483648 in *.
  destruct (Z_lt_le_dec v 0) as [Hneg|Hpos].
  - replace (v mod 4294967296) with (v + 4294967296).
    + destruct (v + 4294967296 <? 2147483648) eqn:El.
      * apply Z.ltb_lt in El. lia.
      * lia.
    + apply Z.mod_unique with (q := -1); lia.
  - rewrite Z.mod_small by lia.
    destruct (v <? 2147483648) eqn:El; [reflexivity|].
    apply Z.ltb_ge in El. lia.
Qed.

(** Writing what was read gives the same [sizeof_int] bytes. *)
Lemma int_to_bytes_of_bytes (big_endian : bool) (bs : list byte) :
  List.length bs = sizeof_int ->
  int_to_bytes big_endian (int_of_bytes big_endian bs) = bs.
Proof.
  intros Hlen. unfold int_to_bytes, int_of_bytes.
  set (l := if big_endian then rev bs else bs).
  assert (Hl : List.length l = sizeof_int).
  { unfold l. destruct big_endian; [rewrite length_rev|]; exact Hlen. }
  assert (Hback : (if big_endian then rev l else l) = bs).
  { unfold l. destruct big_endian; [apply rev_involutive|reflexivity]. }
  pose proof (le_value_range l) as Hr. rewrite Hl, <- int_modulus_eq in Hr.
  assert (Hmod : (if le_value l <? int_modulus / 2
                  then le_value l else le_value l - int_modulus)
                 mod int_modulus = le_value l).
  { change int_modulus with 4294967296 in *.
    destruct (le_value l <? 4294967296 / 2).
    - now apply Z.mod_small.
    - symmetry. apply Z.mod_unique with (q := -1); lia. }
  rewrite Hmod, <- Hl, le_bytes_le_value. exact Hback.
Qed.

Lemma serialize_length (big_endian : bool) (sc : Scanner) :
  List.length (serialize big_endian sc) = sizeof_int.
Proof.
  unfold tree_sitter_neon_external_scanner_serialize, int_to_bytes.
  change (0 <? sizeof_int)%nat with true. cbv iota.
  destruct big_endian; [rewrite length_rev|]; apply le_bytes_length.
Qed.

Lemma deserialize_serialize (big_endian : bool) (prior s : Scanner) :
  - (int_modulus / 2) <= brace_depth s < int_modulus / 2 ->
  deserialize big_endian prior (serialize big_endian s) = Some s.
Proof.
  intros Hr. unfold tree_sitter_neon_external_scanner_deserialize.
  rewrite serialize_length.
  change (0 <? sizeof_int)%nat with true.
  change (sizeof_int <=? sizeof_int)%nat with true. cbv iota.
  rewrite <- (serialize_length big_endian s) at 1. rewrite firstn_all.
  unfold tree_sitter_neon_external_scanner_serialize.
  change (0 <? sizeof_int)%nat with true. cbv iota.
  rewrite int_of_bytes_to_bytes by exact Hr.
  now destruct s.
Qed.

(** C7.  For a state whose depth is 0 or 1, deserializing the bytes that
    serialize produced gives back that state, whatever the state deserialize
    is applied to and whatever the byte order. *)
Theorem deserialize_serialize_roundtrip (big_endian : bool) (prior s : Scanner) :
  brace_depth s = 0 \/ brace_depth s = 1 ->
  deserialize big_endian prior (serialize big_endian s) = Some s.
Proof.
  intros H. apply deserialize_serialize.
  change int_modulus with 4294967296. change (4294967296 / 2) with 2147483648.
  lia.
Qed.

Lemma deserialize_serialize_roundtrip_witness :
  deserialize false {| brace_depth := 0 |}
    (serialize false {| brace_depth := 1 |})
  = Some {| brace_depth := 1 |}.
Proof.
  apply (deserialize_serialize_roundtrip false {| brace_depth := 0 |}
           {| brace_depth := 1 |}).
  right. reflexivity.
Defined.

(** C4 (as amended).  On an empty buffer deserialize leaves the state as it
    was, which is the fresh zero state when it is applied to a freshly
    created scanner; on a buffer of at least [sizeof_int] bytes it succeeds
    and the depth becomes the [int] whose representation is the first
    [sizeof_int] bytes of the buffer: serializing the result gives exactly
    those bytes back. *)
Theorem deserialize_copies (big_endian : bool) (sc : Scanner) (buffer : list byte) :
  deserialize big_endian sc [] = Some sc /\
  deserialize big_endian tree_sitter_neon_external_scanner_create []
  = Some {| brace_depth := 0 |} /\
  ((sizeof_int <= List.length buffer)%nat ->
   exists sc',
     deserialize big_endian sc buffer = Some sc' /\
     brace_depth sc' = int_of_bytes big_endian (firstn sizeof_int buffer) /\
     serialize big_endian sc' = firstn sizeof_int buffer).
Proof.
  split; [reflexivity|]. split; [reflexivity|].
  intros Hlen.
  exists {| brace_depth := int_of_bytes big_endian (firstn sizeof_int buffer) |}.
  split; [|split].
  - unfold tree_sitter_neon_external_scanner_deserialize.
    assert (H0 : (0 <? List.length buffer)%nat = true).
    { apply Nat.ltb_lt. unfold sizeof_int in Hlen. lia. }
    assert (H4 : (sizeof_int <=? List.length buffer)%nat = true).
    { now apply Nat.leb_le. }
    rewrite H0, H4. reflexivity.
  - reflexivity.
  - unfold tree_sitter_neon_external_scanner_serialize.
    change (0 <? sizeof_int)%nat with true. cbv iota. cbn [brace_depth].
    apply int_to_bytes_of_bytes. rewrite length_firstn. lia.
Qed.

Lemma deserialize_copies_witness :
  let buffer := [x01; x00; x00; x00; xff] in
  exists sc',
    deserialize false {| brace_depth := 0 |} buffer = Some sc' /\
    brace_depth sc' = int_of_bytes false (firstn sizeof_int buffer) /\
    serialize false sc' = firstn sizeof_int buffer.
Proof.
  intros buffer.
  apply (proj2 (proj2 (deserialize_copies false {| brace_depth := 0 |} buffer))).
  unfold buffer, sizeof_int. simpl. lia.
Defined.

(** C4 as stated fails.  Applied to a state whose depth is 1, deserialize of
    the empty buffer does not give the fresh zero state: the depth stays 1. *)
Lemma deserialize_empty_keeps_prior_state :
  deserialize false {| brace_depth := 1 |} [] = Some {| brace_depth := 1 |} /\
  brace_depth {| brace_depth := 1 |} <> 0.
Proof. split; [reflexivity|discriminate]. Qed.

(** ** Sessions *)

Lemma scan_brace_depth sc lx vs r sc' lx' :
  scan sc lx vs = Some (r, sc', lx') ->
  sc' = sc \/ sc' = {| brace_depth := 1 |} \/ sc' = {| brace_depth := 0 |}.
Proof.
  scan_inversion.
  - destruct Hstart as (_ & -> & _). intros [= _ <- _]. auto.
  - destruct Hend as (_ & -> & _). intros [= _ <- _]. auto.
  - destruct Hstart as (-> & _). destruct Hend as (-> & _).
    destruct Hcontent as (-> & _). intros [= _ <- _]. auto.
  - destruct Hstart as (-> & _). destruct Hend as (-> & _).
    destruct Hcontent as (-> & _). intros [= _ <- _]. auto.
Qed.

Lemma buffer_eqb_eq (a : list byte) : forall b, buffer_eqb a b = true -> a = b.
Proof.
  induction a as [|x a IH]; intros [|y b]; simpl; try discriminate.
  - reflexivity.
  - intros H. apply andb_prop in H. destruct H as [Hxy Hab].
    apply Byte.byte_dec_bl in Hxy. apply IH in Hab. congruence.
Qed.

Lemma new_session_ok (big_endian : bool) : host_ok big_endian new_session.
Proof. split; [now left|constructor]. Qed.

Lemma step_ok (big_endian : bool) (op : operation) (h : host) :
  host_ok big_endian h ->
  restores h op = true ->
  exists h', step big_endian op h = Some h' /\ host_ok big_endian h'.
Proof.
  intros [Hd Hs] Hop. destruct op as [ | lx vs | | buffer ]; simpl.
  - eexists. split; [reflexivity|]. split; [now left|exact Hs].
  - destruct (scan_total (payload h) lx vs) as (r & sc' & lx' & Hscan).
    rewrite Hscan. eexists. split; [reflexivity|]. split; [|exact Hs].
    apply scan_brace_depth in Hscan. simpl.
    destruct Hscan as [ -> | [ -> | -> ] ]; [exact Hd|now right|now left].
  - eexists. split; [reflexivity|]. split; [exact Hd|].
    constructor; [|exact Hs]. now exists (payload h).
  - simpl in Hop. destruct buffer as [|b buffer].
    + eexists. split; [reflexivity|]. now split.
    + apply existsb_exists in Hop. destruct Hop as (s & Hin & Heq).
      apply buffer_eqb_eq in Heq. rewrite Heq.
      rewrite Forall_forall in Hs. destruct (Hs s Hin) as (sc & Hsc & ->).
      rewrite deserialize_serialize.
      * eexists. split; [reflexivity|]. split; [exact Hsc|].
        now rewrite Forall_forall.
      * change int_modulus with 4294967296.
        change (4294967296 / 2) with 2147483648.
        unfold depth_ok in Hsc. lia.
Qed.

Lemma run_ok (big_endian : bool) (ops : list operation) :
  forall h n,
    host_ok big_endian h ->
    only_restores big_endian ops h = true ->
    exists h', run big_endian (firstn n ops) h = Some h' /\
               host_ok big_endian h'.
Proof.
  induction ops as [|op ops IH]; intros h n Hok Hops.
  - rewrite firstn_nil. now exists h.
  - destruct n as [|n]; [now exists h|].
    simpl in Hops. apply andb_prop in Hops. destruct Hops as [Hop Hrest].
    destruct (step_ok big_endian op h Hok Hop) as (h1 & Hstep & Hok1).
    simpl. rewrite Hstep in *. now apply IH.
Qed.

(** C3.  In a session that starts from a created scanner and in which
    deserialize restores what serialize wrote (every deserialize is given
    the empty buffer or a snapshot that serialize produced earlier in the
    session), every operation has a defined result and after each of them
    the depth is 0 or 1. *)
Theorem session_brace_depth (big_endian : bool) (ops : list operation) (n : nat) :
  only_restores big_endian ops new_session = true ->
  exists h,
    run big_endian (firstn n ops) new_session = Some h /\
    (brace_depth (payload h) = 0 \/ brace_depth (payload h) = 1).
Proof.
  intros Hops.
  destruct (run_ok big_endian ops new_session n (new_session_ok big_endian) Hops)
    as (h & Hrun & Hd & _).
  now exists h.
Qed.

Lemma session_brace_depth_witness :
  only_restores false example_session new_session = true /\
  exists h,
    run false (firstn 5 example_session) new_session = Some h /\
    (brace_depth (payload h) = 0 \/ brace_depth (payload h) = 1).
Proof.
  split; [reflexivity|].
  apply (session_brace_depth false example_session 5). reflexivity.
Defined.

(** deserialize itself does not check what it copies: given four bytes that
    no serialize of a session produces, it sets the depth to what they
    encode, here 2. *)
Lemma deserialize_breaks_depth_range :
  run false [OpDeserialize [x02; x00; x00; x00]] new_session
  = Some {| payload := {| brace_depth := 2 |}; snapshots := [] |} /\
  ~ (brace_depth {| brace_depth := 2 |} = 0 \/
     brace_depth {| brace_depth := 2 |} = 1).
Proof.
  split; [reflexivity|]. simpl. intros [H|H]; discriminate H.
Qed.

(** ** Worked inputs *)

(** The text [hello] before the closing quote is one content token. *)
Example scan_hello :
  let lx := {| input := codes "hello" ++ [DQUOTE]; position := 1;
               token_end := None; result_symbol := 0 |} in
  let lx' := {| input := [DQUOTE]; position := 6; token_end := Some 6%nat;
                result_symbol := symbol STRING_CONTENT |} in
  scan {| brace_depth := 0 |} lx (accepts [STRING_CONTENT])
  = Some (true, {| brace_depth := 0 |}, lx') /\
  committed_span lx lx' = Some (codes "hello").
Proof. split; reflexivity. Qed.

(** The tokens of [a${b}c]: content [a], the opener, then, behind the
    expression [b] that the host parses, the closer and content [c]. *)
Example scan_interpolated_string :
  let vs_text := accepts [STRING_CONTENT; STRING_INTERPOLATION_START] in
  let vs_close := accepts [STRING_INTERPOLATION_END] in
  let at_ p l := {| input := l; position := p; token_end := None;
                    result_symbol := 0 |} in
  let out p l t := {| input := l; position := p; token_end := Some p;
                      result_symbol := symbol t |} in
  scan {| brace_depth := 0 |} (at_ 1%nat (codes "a${b}c" ++ [DQUOTE])) vs_text
  = Some (true, {| brace_depth := 0 |},
          {| input := codes "{b}c" ++ [DQUOTE]; position := 3;
             token_end := Some 2%nat; result_symbol := 0 |}) /\
  scan {| brace_depth := 0 |} (at_ 2%nat (codes "${b}c" ++ [DQUOTE])) vs_text
  = Some (true, {| brace_depth := 1 |},
          out 4%nat (codes "b}c" ++ [DQUOTE]) STRING_INTERPOLATION_START) /\
  scan {| brace_depth := 1 |} (at_ 5%nat (codes "}c" ++ [DQUOTE])) vs_close
  = Some (true, {| brace_depth := 0 |},
          out 6%nat (codes "c" ++ [DQUOTE]) STRING_INTERPOLATION_END) /\
  scan {| brace_depth := 0 |} (at_ 6%nat (codes "c" ++ [DQUOTE])) vs_text
  = Some (true, {| brace_depth := 0 |},
          out 7%nat [DQUOTE] STRING_CONTENT).
Proof. repeat split. Qed.

(** A lone [$] before the closing quote is a content token when only the
    content kind is accepted; when the InterpolationOpen kind is accepted
    too, its branch has advanced over the [$] before the content loop
    starts, the loop sees the quote first and scan declines. *)
Example scan_lone_dollar :
  let lx := {| input := [DOLLAR; DQUOTE]; position := 0; token_end := None;
               result_symbol := 0 |} in
  scan {| brace_depth := 0 |} lx (accepts [STRING_CONTENT])
  = Some (true, {| brace_depth := 0 |},
          {| input := [DQUOTE]; position := 1; token_end := Some 1%nat;
             result_symbol := symbol STRING_CONTENT |}) /\
  scan {| brace_depth := 0 |} lx
       (accepts [STRING_CONTENT; STRING_INTERPOLATION_START])
  = Some (false, {| brace_depth := 0 |},
          {| input := [DQUOTE]; position := 1; token_end := None;
             result_symbol := 0 |}).
Proof. split; reflexivity. Qed.

(** With both the opener and the closer accepted inside an interpolation,
    [$] followed by [}] gives a closer token that spans both characters. *)
Example scan_dollar_then_closing_brace :
  let lx := lexer_at "$}" in
  let lx' := {| input := []; position := 2; token_end := Some 2%nat;
                result_symbol := symbol STRING_INTERPOLATION_END |} in
  scan {| brace_depth := 1 |} lx
       (accepts [STRING_INTERPOLATION_START; STRING_INTERPOLATION_END])
  = Some (true, {| brace_depth := 0 |}, lx') /\
  committed_span lx lx' = Some (codes "$}").
Proof. split; reflexivity. Qed.

(** * Further properties of scan *)

(** The cursor after any call, and the marked end after a successful one. *)
Lemma scan_cursor_shape sc lx vs r sc' lx' :
  scan sc lx vs = Some (r, sc', lx') ->
  exists consumed,
    input lx = consumed ++ input lx' /\
    position lx' = (position lx + List.length consumed)%nat /\
    (r = true ->
     exists e, token_end lx' = Some e /\
               (position lx < e)%nat /\ (e <= position lx')%nat).
Proof.
  scan_inversion.
  - destruct Hstart as (-> & -> & _ & tl & Hin & ->).
    intros [= <- <- <-]. exists [DOLLAR; LBRACE]. simpl.
    repeat split; [exact Hin|lia|].
    intros _. exists (S (S (position lx))). repeat split; lia.
  - destruct Hstart as (-> & Hstart).
    destruct Hend as (-> & -> & _ & _ & tl & Hin & ->).
    intros [= <- <- <-].
    destruct Hstart as [(-> & _)|(_ & rest0 & Hin0 & _ & ->)].
    + exists [RBRACE]. simpl. repeat split; [exact Hin|lia|].
      intros _. exists (S (position lx)). repeat split; lia.
    + simpl in Hin. subst rest0. exists [DOLLAR; RBRACE]. simpl.
      repeat split; [exact Hin0|lia|].
      intros _. exists (S (S (position lx))). repeat split; lia.
  - destruct Hstart as (-> & Hstart). destruct Hend as (-> & -> & _).
    destruct Hcontent as (-> & _ & pre & post & Hsplit & _ & _ & -> & Hexit).
    intros [= <- <- <-].
    assert (Hshape : exists more,
      input lx1 = more ++ input lxC /\
      position lxC = (position lx1 + List.length more)%nat /\
      (negb (Nat.eqb (List.length pre) 0) = true ->
       exists e, token_end lxC = Some e /\
                 (position lx1 < e)%nat /\ (e <= position lxC)%nat)).
    { destruct Hexit as [(_ & Hne & ->)|(tl & -> & ->)]; simpl.
      - exists pre. repeat split; trivial.
        intros _. exists (position lx1 + List.length pre)%nat.
        destruct pre; [now elim Hne|]. simpl. repeat split; lia.
      - exists (pre ++ [DOLLAR]). rewrite <- app_assoc. simpl.
        rewrite length_app. simpl. repeat split; [exact Hsplit|lia|].
        intros Hr. apply length_eqb_0_cons in Hr.
        exists (position lx1 + List.length pre)%nat.
        destruct pre; [now elim Hr|]. simpl. repeat split; lia. }
    destruct Hshape as (more & Hin & Hpos & Hmark).
    destruct Hstart as [(-> & _)|(_ & rest0 & Hin0 & _ & ->)].
    + exists more. auto.
    + simpl in Hin, Hpos, Hmark. exists (DOLLAR :: more). simpl.
      rewrite Hin0, Hin, Hpos. repeat split; [lia|].
      intros Hr. destruct (Hmark Hr) as (e & He & Hlt & Hle).
      exists e. repeat split; [exact He|lia|lia].
  - destruct Hstart as (-> & Hstart). destruct Hend as (-> & -> & _).
    destruct Hcontent as (-> & -> & _).
    intros [= <- <- <-].
    destruct Hstart as [(-> & _)|(_ & rest0 & Hin0 & _ & ->)].
    + exists []. simpl. repeat split; [lia|discriminate].
    + exists [DOLLAR]. simpl. repeat split; [exact Hin0|lia|discriminate].
Qed.

(** X2.  Every token a successful scan commits is a non-empty prefix of the
    text at the cursor, and it ends no later than where the cursor stands
    when scan returns. *)
Theorem scan_token_nonempty_prefix sc lx vs sc' lx' :
  scan sc lx vs = Some (true, sc', lx') ->
  exists span rest,
    committed_span lx lx' = Some span /\
    uncommitted lx lx' = Some rest /\
    input lx = span ++ rest /\
    span <> [] /\
    (position lx + List.length span <= position lx')%nat.
Proof.
  intros Hscan.
  destruct (scan_cursor_shape _ _ _ _ _ _ Hscan)
    as (consumed & Hin & Hpos & Hmark).
  destruct (Hmark eq_refl) as (e & He & Hlt & Hle).
  unfold committed_span, uncommitted. rewrite He.
  exists (firstn (e - position lx) (input lx)),
         (skipn (e - position lx) (input lx)).
  repeat split.
  - symmetry. apply firstn_skipn.
  - intros Hnil. apply (f_equal (@List.length Z)) in Hnil.
    rewrite length_firstn, Hin, length_app in Hnil. simpl in Hnil. lia.
  - rewrite length_firstn, Hin, length_app. lia.
Qed.

Lemma scan_token_nonempty_prefix_witness :
  let lx := lexer_at "ab${c}" in
  let lx' := {| input := codes "{c}"; position := 3; token_end := Some 2%nat;
                result_symbol := 0 |} in
  exists span rest,
    committed_span lx lx' = Some span /\
    uncommitted lx lx' = Some rest /\
    input lx = span ++ rest /\
    span <> [] /\
    (position lx + List.length span <= position lx')%nat.
Proof.
  intros lx lx'.
  apply (scan_token_nonempty_prefix {| brace_depth := 0 |} lx
           (accepts [STRING_CONTENT]) {| brace_depth := 0 |} lx').
  reflexivity.
Defined.



(** X1.  A successful scan reports one accepted kind and changes the
    scanner state by it: for the opener the depth becomes 1; for the closer
    the depth was positive and becomes 0; for content the state is
    unchanged.  The result slot holds that kind, except on the return from
    inside the content loop, where it keeps what it held at entry.  When the
    slot was reset to 0 at entry, it holds exactly that kind, so that the
    scan is of exactly one of the three sorts. *)
Theorem scan_success_kinds sc lx vs sc' lx' :
  scan sc lx vs = Some (true, sc', lx') ->
  exists t,
    vs t = true /\
    sc' = match t with
          | STRING_INTERPOLATION_START => {| brace_depth := 1 |}
          | STRING_INTERPOLATION_END => {| brace_depth := 0 |}
          | STRING_CONTENT => sc
          end /\
    (t = STRING_INTERPOLATION_END -> brace_depth sc > 0) /\
    (result_symbol lx' = symbol t \/
     (t = STRING_CONTENT /\ result_symbol lx' = result_symbol lx)) /\
    (result_symbol lx = symbol STRING_CONTENT ->
     result_symbol lx' = symbol t /\
     forall t', result_symbol lx' = symbol t' -> t' = t).
Proof.
  assert (Hinj : forall t t', symbol t = symbol t' -> t' = t).
  { intros [ | | ] [ | | ]; simpl; intros H; try reflexivity; discriminate H. }
  scan_inversion.
  - destruct Hstart as (-> & -> & Hvs & tl & _ & ->).
    intros [= <- <-]. exists STRING_INTERPOLATION_START.
    repeat split; trivial; try discriminate; try (now left).
    intros t'. exact (Hinj STRING_INTERPOLATION_START t').
  - destruct Hstart as (-> & _).
    destruct Hend as (-> & -> & Hvs & Hpos & tl & _ & ->).
    intros [= <- <-]. exists STRING_INTERPOLATION_END.
    repeat split; trivial; try (now left).
    intros t'. exact (Hinj STRING_INTERPOLATION_END t').
  - destruct Hstart as (-> & Hstart). destruct Hend as (-> & -> & _).
    destruct Hcontent as (-> & Hvs & pre & post & _ & _ & _ & _ & Hexit).
    intros [= _ <- <-]. exists STRING_CONTENT.
    assert (Hslot : result_symbol lxC = symbol STRING_CONTENT \/
                    result_symbol lxC = result_symbol lx).
    { destruct Hexit as [(_ & _ & ->)|(tl & _ & ->)]; simpl; [now left|right].
      destruct Hstart as [(-> & _)|(_ & rest0 & _ & _ & ->)]; reflexivity. }
    assert (Hreset : result_symbol lx = symbol STRING_CONTENT ->
                     result_symbol lxC = symbol STRING_CONTENT).
    { intros H0. destruct Hslot as [H|H]; congruence. }
    repeat split; trivial; try discriminate.
    + destruct Hslot as [H|H]; [now left|right; now split].
    + now apply Hreset.
    + intros t' Ht'. apply Hinj. rewrite <- Ht'. symmetry. now apply Hreset.
  - intros [=].
Qed.

Lemma scan_success_kinds_witness :
  let sc := {| brace_depth := 3 |} in
  let lx := lexer_at "}" in
  let vs := accepts [STRING_INTERPOLATION_END; STRING_CONTENT] in
  let sc' := {| brace_depth := 0 |} in
  let lx' := {| input := []; position := 1; token_end := Some 1%nat;
                result_symbol := symbol STRING_INTERPOLATION_END |} in
  exists t,
    vs t = true /\
    sc' = match t with
          | STRING_INTERPOLATION_START => {| brace_depth := 1 |}
          | STRING_INTERPOLATION_END => {| brace_depth := 0 |}
          | STRING_CONTENT => sc
          end /\
    (t = STRING_INTERPOLATION_END -> brace_depth sc > 0) /\
    (result_symbol lx' = symbol t \/
     (t = STRING_CONTENT /\ result_symbol lx' = result_symbol lx)) /\
    (result_symbol lx = symbol STRING_CONTENT ->
     result_symbol lx' = symbol t /\
     forall t', result_symbol lx' = symbol t' -> t' = t).
Proof.
  intros sc lx vs sc' lx'.
  apply (scan_success_kinds sc lx vs sc' lx'). reflexivity.
Defined.

(** X4.  When the result slot does not already hold the opener kind, scan
    reports the opener exactly when that kind is accepted and the text at
    the cursor starts with [$] [{]. *)
Theorem scan_opener_iff sc lx vs :
  result_symbol lx <> symbol STRING_INTERPOLATION_START ->
  (exists sc' lx',
     scan sc lx vs = Some (true, sc', lx') /\
     result_symbol lx' = symbol STRING_INTERPOLATION_START) <->
  (vs STRING_INTERPOLATION_START = true /\
   exists tl, input lx = DOLLAR :: LBRACE :: tl).
Proof.
  intros Hslot. split.
  - intros (sc' & lx' & Hscan & Hsym). revert Hscan. scan_inversion.
    + destruct Hstart as (_ & _ & Hvs & tl & Hin & _).
      intros _. split; [exact Hvs|now exists tl].
    + destruct Hend as (_ & _ & _ & _ & tl & _ & ->).
      intros [= _ _ <-]. discriminate Hsym.
    + destruct Hstart as (-> & Hstart). destruct Hend as (-> & -> & _).
      destruct Hcontent as (_ & _ & pre & post & _ & _ & _ & _ & Hexit).
      intros [= _ _ <-].
      destruct Hexit as [(_ & _ & ->)|(tl & _ & ->)]; simpl in Hsym;
        [discriminate Hsym|].
      destruct Hstart as [(-> & _)|(_ & rest0 & _ & _ & ->)];
        simpl in Hsym; contradiction.
    + intros [=].
  - intros (Hvs & tl & Hin).
    destruct lx as [inp p te rs]. simpl in Hin. subst inp.
    do 2 eexists.
    unfold tree_sitter_neon_external_scanner_scan, interpolation_start_branch.
    rewrite Hvs. simpl. split; reflexivity.
Qed.

Lemma scan_opener_iff_witness :
  let lx := lexer_at "${x}" in
  let vs := accepts [STRING_CONTENT; STRING_INTERPOLATION_START] in
  vs STRING_INTERPOLATION_START = true /\
  exists tl, input lx = DOLLAR :: LBRACE :: tl.
Proof.
  intros lx vs.
  apply (proj1 (scan_opener_iff {| brace_depth := 0 |} lx vs
                  ltac:(simpl; discriminate))).
  exists {| brace_depth := 1 |},
         {| input := codes "x}"; position := 2; token_end := Some 2%nat;
            result_symbol := symbol STRING_INTERPOLATION_START |}.
  split; reflexivity.
Defined.

(** X5.  When the result slot does not already hold the closer kind, scan
    reports the closer exactly when that kind is accepted, the depth is
    positive, and the text at the cursor starts with [}] or, with the opener
    kind accepted too, with [$] [}]: the opener branch has then advanced
    over the [$] before the closer branch looks at the cursor. *)
Theorem scan_closer_iff sc lx vs :
  result_symbol lx <> symbol STRING_INTERPOLATION_END ->
  (exists sc' lx',
     scan sc lx vs = Some (true, sc', lx') /\
     result_symbol lx' = symbol STRING_INTERPOLATION_END) <->
  (vs STRING_INTERPOLATION_END = true /\ brace_depth sc > 0 /\
   ((exists tl, input lx = RBRACE :: tl) \/
    (vs STRING_INTERPOLATION_START = true /\
     exists tl, input lx = DOLLAR :: RBRACE :: tl))).
Proof.
  intros Hslot. split.
  - intros (sc' & lx' & Hscan & Hsym). revert Hscan. scan_inversion.
    + destruct Hstart as (_ & _ & _ & tl & _ & ->).
      intros [= _ _ <-]. discriminate Hsym.
    + destruct Hstart as (-> & Hstart).
      destruct Hend as (_ & _ & Hvs & Hpos & tl & Hin & _).
      intros _. repeat split; trivial.
      destruct Hstart as [(-> & _)|(Hvs1 & rest0 & Hin0 & _ & ->)].
      * left. now exists tl.
      * right. split; [exact Hvs1|]. simpl in Hin. subst rest0. now exists tl.
    + destruct Hstart as (-> & Hstart). destruct Hend as (-> & -> & _).
      destruct Hcontent as (_ & _ & pre & post & _ & _ & _ & _ & Hexit).
      intros [= _ _ <-].
      destruct Hexit as [(_ & _ & ->)|(tl & _ & ->)]; simpl in Hsym;
        [discriminate Hsym|].
      destruct Hstart as [(-> & _)|(_ & rest0 & _ & _ & ->)];
        simpl in Hsym; contradiction.
    + intros [=].
  - intros (Hvs & Hpos & Hin). apply Z.gtb_gt in Hpos.
    destruct lx as [inp p te rs]. simpl in Hin.
    unfold tree_sitter_neon_external_scanner_scan, interpolation_start_branch,
      interpolation_end_branch.
    rewrite Hvs.
    destruct Hin as [(tl & ->)|(Hvs1 & tl & ->)].
    + do 2 eexists.
      destruct (vs STRING_INTERPOLATION_START); simpl; rewrite Hpos;
        split; reflexivity.
    + do 2 eexists. rewrite Hvs1. simpl. rewrite Hpos. split; reflexivity.
Qed.

Lemma scan_closer_iff_witness :
  let sc := {| brace_depth := 1 |} in
  let lx := lexer_at "}c" in
  let vs := accepts [STRING_INTERPOLATION_END] in
  exists sc' lx',
    scan sc lx vs = Some (true, sc', lx') /\
    result_symbol lx' = symbol STRING_INTERPOLATION_END.
Proof.
  intros sc lx vs.
  apply (proj2 (scan_closer_iff sc lx vs ltac:(simpl; discriminate))).
  split; [reflexivity|]. split; [simpl; lia|].
  left. exists (codes "c"). reflexivity.
Defined.

(** ** The content branch against the content run of the text *)

(** X6.  When the content kind is accepted and neither earlier branch
    interferes (the opener kind is not accepted or the cursor is not at a
    [$]; the closer kind is not accepted, the cursor is not at a [}], or the
    depth is not positive), scan computes the content run of the text: it
    succeeds exactly when the run is non-empty, commits exactly the run,
    leaves the rest of the text uncommitted, and does not touch the
    scanner state. *)
Theorem scan_content_run sc lx vs :
  vs STRING_CONTENT = true ->
  vs STRING_INTERPOLATION_START = false \/ lookahead lx <> DOLLAR ->
  vs STRING_INTERPOLATION_END = false \/ lookahead lx <> RBRACE \/
  brace_depth sc <= 0 ->
  let run := text_run (input lx) in
  exists lx',
    scan sc lx vs = Some (negb (Nat.eqb (List.length run) 0), sc, lx') /\
    (run <> [] ->
     committed_span lx lx' = Some run /\
     uncommitted lx lx' = Some (skipn (List.length run) (input lx))).
Proof.
  intros Hvs Hstart Hend run.
  assert (Hs : interpolation_start_branch vs sc lx = FellThrough sc lx).
  { destruct Hstart as [H|H]; [|now apply interpolation_start_skips].
    unfold interpolation_start_branch. now rewrite H. }
  assert (He : interpolation_end_branch vs sc lx = FellThrough sc lx).
  { destruct Hend as [H|H]; [|now apply interpolation_end_skips].
    unfold interpolation_end_branch. now rewrite H. }
  unfold tree_sitter_neon_external_scanner_scan. rewrite Hs, He.
  destruct (string_content_total vs sc lx) as [b Hb]. rewrite Hb.
  destruct b as [r sc' lx'|sc' lx'].
  - apply string_content_returned in Hb.
    destruct Hb as (-> & _ & pre & post & Hsplit & Hpre & Hno & -> & Hexit).
    assert (Hrun : run = pre).
    { unfold run. rewrite Hsplit. apply text_run_app; trivial.
      destruct Hexit as [(Hst & _)|(tl & -> & _)]; [now left|right; eauto]. }
    exists lx'. rewrite Hrun. split; [reflexivity|]. intros _.
    assert (Hte : token_end lx' = Some (position lx + List.length pre)%nat).
    { destruct Hexit as [(_ & _ & ->)|(tl & _ & ->)]; reflexivity. }
    unfold committed_span, uncommitted. rewrite Hte, Hsplit.
    rewrite firstn_length_app, skipn_length_app, skipn_length_exact.
    split; reflexivity.
  - apply string_content_fell_through in Hb.
    destruct Hb as (-> & -> & [Hb|Hb]); [congruence|].
    assert (Hrun : run = []) by (apply text_run_stop; exact Hb).
    exists lx. rewrite Hrun. split; [reflexivity|]. intros H. now elim H.
Qed.

Lemma scan_content_run_witness :
  let sc := {| brace_depth := 1 |} in
  let lx := lexer_at "a$b}${c}" in
  let vs := accepts [STRING_CONTENT; STRING_INTERPOLATION_START;
                     STRING_INTERPOLATION_END] in
  text_run (input lx) = codes "a$b}" /\
  exists lx',
    scan sc lx vs
    = Some (negb (Nat.eqb (List.length (text_run (input lx))) 0), sc, lx') /\
    (text_run (input lx) <> [] ->
     committed_span lx lx' = Some (text_run (input lx)) /\
     uncommitted lx lx'
     = Some (skipn (List.length (text_run (input lx))) (input lx))).
Proof.
  intros sc lx vs. split; [reflexivity|].
  apply (scan_content_run sc lx vs).
  - reflexivity.
  - right. simpl. discriminate.
  - right. left. simpl. discriminate.
Defined.

(** X7.  When a content token ends right before a [$], the text left
    uncommitted starts with [$] [{], and a scan that starts there with the
    opener kind accepted emits the opener and sets the depth to 1. *)
Theorem scan_content_then_opener sc lx vs sc' lx' next vs' :
  scan sc lx vs = Some (true, sc', lx') ->
  result_symbol lx' = symbol STRING_CONTENT ->
  uncommitted lx lx' = Some (input next) ->
  lookahead next = DOLLAR ->
  vs' STRING_INTERPOLATION_START = true ->
  exists tl,
    input next = DOLLAR :: LBRACE :: tl /\
    scan sc' next vs'
    = Some (true, {| brace_depth := 1 |},
            {| input := tl; position := S (S (position next));
               token_end := Some (S (S (position next)));
               result_symbol := symbol STRING_INTERPOLATION_START |}).
Proof.
  intros Hscan Hsym Hrest Hd Hvs.
  destruct (scan_content_shape _ _ _ _ _ Hscan Hsym)
    as (_ & span & rest & Hin & Hte & _ & _ & _ & Hexit).
  unfold uncommitted in Hrest. rewrite Hte, Hin, skipn_length_app in Hrest.
  injection Hrest as Hrest. unfold lookahead in Hd. rewrite <- Hrest in Hd.
  destruct Hexit as [(Hst & _)|(tl & Htl & _)].
  - apply stop_char_not_dollar in Hst. contradiction.
  - exists tl. rewrite <- Hrest. split; [exact Htl|].
    destruct next as [inp p te rs]. simpl in Hrest. subst inp rest.
    unfold tree_sitter_neon_external_scanner_scan, interpolation_start_branch.
    rewrite Hvs. reflexivity.
Qed.

Lemma scan_content_then_opener_witness :
  let lx := lexer_at "ab${c}" in
  let lx' := {| input := codes "{c}"; position := 3; token_end := Some 2%nat;
                result_symbol := 0 |} in
  let next := {| input := codes "${c}"; position := 2; token_end := None;
                 result_symbol := 0 |} in
  exists tl,
    input next = DOLLAR :: LBRACE :: tl /\
    scan {| brace_depth := 0 |} next (accepts [STRING_INTERPOLATION_START])
    = Some (true, {| brace_depth := 1 |},
            {| input := tl; position := S (S (position next));
               token_end := Some (S (S (position next)));
               result_symbol := symbol STRING_INTERPOLATION_START |}).
Proof.
  intros lx lx' next.
  apply (scan_content_then_opener {| brace_depth := 0 |} lx
           (accepts [STRING_CONTENT]) {| brace_depth := 0 |} lx' next
           (accepts [STRING_INTERPOLATION_START]));
    reflexivity.
Defined.

(** ** Termination *)

(** More iterations than needed do not change how the loop is left. *)
Lemma content_loop_more_fuel (fuel : nat) :
  forall fuel' has_content lx e,
    (fuel <= fuel')%nat ->
    content_loop fuel has_content lx = Some e ->
    content_loop fuel' has_content lx = Some e.
Proof.
  induction fuel as [|fuel IH]; intros fuel' hc lx e Hle; [discriminate|].
  destruct fuel' as [|fuel']; [lia|]. simpl.
  destruct ((lookahead lx =? DQUOTE) || (lookahead lx =? NUL)); [trivial|].
  destruct (lookahead lx =? BACKSLASH); [trivial|].
  destruct (lookahead lx =? DOLLAR).
  - destruct (lookahead (advance (mark_end lx)) =? LBRACE); [trivial|].
    apply IH. lia.
  - apply IH. lia.
Qed.

(** X8.  scan returns on every input: the content loop is left after at
    most one more iteration than there are characters at the cursor, and
    any larger bound on the iterations gives the same exit. *)
Theorem scan_terminates sc lx vs :
  (exists r sc' lx', scan sc lx vs = Some (r, sc', lx')) /\
  (forall fuel has_content,
     (List.length (input lx) < fuel)%nat ->
     exists e,
       content_loop (loop_fuel lx) has_content lx = Some e /\
       content_loop fuel has_content lx = Some e).
Proof.
  split; [apply scan_total|].
  intros fuel hc Hfuel.
  destruct (content_loop_total (loop_fuel lx) hc lx) as [e He].
  { unfold loop_fuel. lia. }
  exists e. split; [exact He|].
  apply content_loop_more_fuel with (fuel := loop_fuel lx); [|exact He].
  unfold loop_fuel. lia.
Qed.

Lemma scan_terminates_witness :
  let lx := lexer_at "a$b" in
  exists e,
    content_loop (loop_fuel lx) false lx = Some e /\
    content_loop 10 false lx = Some e.
Proof.
  intros lx.
  apply (proj2 (scan_terminates {| brace_depth := 0 |} lx
                  (accepts [STRING_CONTENT])) 10%nat false).
  simpl. lia.
Defined.

(** ** The depth as a flag *)

(** X9.  scan reads the depth only through the test [brace_depth > 0]: from
    two states that agree on that test, the same call returns the same
    result and leaves the same cursor, and the two states are either both
    left as they were or both set to the same new state. *)
Theorem scan_depth_as_flag sc1 sc2 lx vs r sc1' lx' :
  (brace_depth sc1 > 0 <-> brace_depth sc2 > 0) ->
  tree_sitter_neon_external_scanner_scan sc1 lx vs = Some (r, sc1', lx') ->
  exists sc2',
    tree_sitter_neon_external_scanner_scan sc2 lx vs = Some (r, sc2', lx') /\
    ((sc1' = sc1 /\ sc2' = sc2) \/ sc1' = sc2').
Proof.
  intros Hflag.
  assert (Hgt : (brace_depth sc1 >? 0) = (brace_depth sc2 >? 0)).
  { destruct (brace_depth sc1 >? 0) eqn:E1, (brace_depth sc2 >? 0) eqn:E2;
      trivial.
    - apply Z.gtb_gt in E1. apply Hflag in E1. apply Z.gtb_gt in E1. congruence.
    - apply Z.gtb_gt in E2. apply Hflag in E2. apply Z.gtb_gt in E2. congruence. }
  unfold tree_sitter_neon_external_scanner_scan, interpolation_start_branch.
  destruct (vs STRING_INTERPOLATION_START);
    [destruct (lookahead lx =? DOLLAR);
     [destruct (lookahead (advance lx) =? LBRACE)|]|].
  1: { intros [= <- <- <-]. eexists. split; [reflexivity|now right]. }
  all: unfold interpolation_end_branch, string_content_branch; rewrite Hgt;
    destruct (vs STRING_INTERPOLATION_END);
    try destruct (_ && _);
    try (intros [= <- <- <-]; eexists; split; [reflexivity|now right]);
    destruct (vs STRING_CONTENT);
    try (intros [= <- <- <-]; eexists; split; [reflexivity|now left]);
    destruct (content_loop _ _ _) as [[[|] lxb|rr lxr]|];
    try discriminate;
    intros [= <- <- <-]; eexists; split; try reflexivity; now left.
Qed.

Lemma scan_depth_as_flag_witness :
  let lx := lexer_at "}c" in
  let vs := accepts [STRING_INTERPOLATION_END; STRING_CONTENT] in
  let lx' := {| input := codes "c"; position := 1; token_end := Some 1%nat;
                result_symbol := symbol STRING_INTERPOLATION_END |} in
  exists sc2',
    scan {| brace_depth := 7 |} lx vs = Some (true, sc2', lx') /\
    (({| brace_depth := 0 |} = {| brace_depth := 1 |} /\
      sc2' = {| brace_depth := 7 |}) \/
     {| brace_depth := 0 |} = sc2').
Proof.
  intros lx vs lx'.
  apply (scan_depth_as_flag {| brace_depth := 1 |} {| brace_depth := 7 |} lx vs
           true {| brace_depth := 0 |} lx').
  - simpl. lia.
  - reflexivity.
Defined.

(** * Further properties of the codec and of sessions *)

Lemma int_of_bytes_range (big_endian : bool) (bs : list byte) :
  List.length bs = sizeof_int -> int_range (int_of_bytes big_endian bs).
Proof.
  intros Hlen. unfold int_of_bytes, int_range.
  set (l := if big_endian then rev bs else bs).
  assert (Hl : List.length l = sizeof_int).
  { unfold l. destruct big_endian; [rewrite length_rev|]; exact Hlen. }
  pose proof (le_value_range l) as Hr. rewrite Hl, <- int_modulus_eq in Hr.
  change int_modulus with 4294967296 in *.
  change (4294967296 / 2) with 2147483648.
  destruct (le_value l <? 2147483648) eqn:E.
  - apply Z.ltb_lt in E. lia.
  - apply Z.ltb_ge in E. lia.
Qed.

(** X10.  serialize always writes exactly [sizeof_int] bytes, and it writes
    different bytes for different states: two states whose depths are [int]
    values and whose snapshots are equal are the same state. *)
Theorem serialize_injective (big_endian : bool) (s1 s2 : Scanner) :
  int_range (brace_depth s1) ->
  int_range (brace_depth s2) ->
  List.length (serialize big_endian s1) = sizeof_int /\
  (serialize big_endian s1 = serialize big_endian s2 -> s1 = s2).
Proof.
  intros H1 H2. split; [apply serialize_length|].
  intros Heq.
  pose proof (deserialize_serialize big_endian s1 s1 H1) as E1.
  pose proof (deserialize_serialize big_endian s1 s2 H2) as E2.
  rewrite Heq in E1. congruence.
Qed.

Lemma serialize_injective_witness :
  List.length (serialize true {| brace_depth := 1 |}) = sizeof_int /\
  (serialize true {| brace_depth := 1 |} = serialize true {| brace_depth := -1 |} ->
   {| brace_depth := 1 |} = {| brace_depth := -1 |}).
Proof.
  apply (serialize_injective true {| brace_depth := 1 |}
           {| brace_depth := -1 |});
    (vm_compute; split; [discriminate|reflexivity]).
Defined.

(** Whatever the operations of a session are, also deserializes of
    arbitrary buffers, the depth is an [int] value. *)
Lemma run_int_range (big_endian : bool) (ops : list operation) :
  forall h h',
    int_range (brace_depth (payload h)) ->
    run big_endian ops h = Some h' ->
    int_range (brace_depth (payload h')).
Proof.
  assert (H01 : forall d, d = 0 \/ d = 1 -> int_range d).
  { intros d Hd. unfold int_range. change int_modulus with 4294967296.
    change (4294967296 / 2) with 2147483648. lia. }
  induction ops as [|op ops IH]; intros h h' Hr; simpl.
  - now intros [= <-].
  - destruct (step big_endian op h) as [h1|] eqn:Hstep; [|discriminate].
    apply IH. destruct op as [ | lx vs | | buffer ]; cbn [step] in Hstep.
    + injection Hstep as <-. simpl. apply H01. now left.
    + destruct (scan (payload h) lx vs) as [[[r sc'] lx']|] eqn:Hscan;
        [|discriminate].
      injection Hstep as <-. simpl.
      apply scan_brace_depth in Hscan.
      destruct Hscan as [ -> | [ -> | -> ] ];
        [exact Hr|apply H01; now right|apply H01; now left].
    + injection Hstep as <-. exact Hr.
    + unfold tree_sitter_neon_external_scanner_deserialize in Hstep.
      destruct (0 <? List.length buffer)%nat.
      * destruct (sizeof_int <=? List.length buffer)%nat eqn:E4;
          [|discriminate].
        injection Hstep as <-. cbn [payload brace_depth].
        apply int_of_bytes_range. apply Nat.leb_le in E4.
        change (List.length (firstn sizeof_int buffer) = sizeof_int).
        rewrite length_firstn. lia.
      * injection Hstep as <-. exact Hr.
Qed.

(** X11.  In every state a session can reach from a created scanner,
    whatever its operations were (deserializes of arbitrary buffers
    included), taking a snapshot and restoring it gives back that state,
    whatever state the scanner is in when it is restored. *)
Theorem session_snapshot_restores
    (big_endian : bool) (ops : list operation) (h : host) (prior : Scanner) :
  run big_endian ops new_session = Some h ->
  deserialize big_endian prior (serialize big_endian (payload h))
  = Some (payload h).
Proof.
  intros Hrun. apply deserialize_serialize.
  apply (run_int_range big_endian ops new_session h); [|exact Hrun].
  unfold int_range. simpl. change int_modulus with 4294967296.
  change (4294967296 / 2) with 2147483648. lia.
Qed.

Lemma session_snapshot_restores_witness :
  let ops := [OpDeserialize [xfe; xff; xff; xff; x00];
              OpScan (lexer_at "abc") (accepts [STRING_CONTENT])] in
  let h := {| payload := {| brace_depth := -2 |}; snapshots := [] |} in
  run false ops new_session = Some h /\
  deserialize false {| brace_depth := 1 |} (serialize false (payload h))
  = Some (payload h).
Proof.
  intros ops h. split; [reflexivity|].
  apply (session_snapshot_restores false ops h {| brace_depth := 1 |}).
  reflexivity.
Defined.

(** ** The depth along a sequence of scans *)

Lemma scan_flag_update sc lx vs r sc' lx' :
  result_symbol lx = symbol STRING_CONTENT ->
  scan sc lx vs = Some (r, sc', lx') ->
  brace_depth sc' = flag_update (brace_depth sc) (r, result_symbol lx').
Proof.
  intros Hslot. scan_inversion.
  - destruct Hstart as (-> & -> & _ & tl & _ & ->).
    intros [= <- <- <-]. reflexivity.
  - destruct Hend as (-> & -> & _ & _ & tl & _ & ->).
    intros [= <- <- <-]. reflexivity.
  - destruct Hstart as (-> & Hstart). destruct Hend as (-> & -> & _).
    destruct Hcontent as (-> & _ & pre & post & _ & _ & _ & _ & Hexit).
    intros [= <- <- <-].
    assert (Hsym : result_symbol lxC = symbol STRING_CONTENT).
    { destruct Hexit as [(_ & _ & ->)|(tl & _ & ->)]; [reflexivity|].
      destruct Hstart as [(-> & _)|(_ & rest0 & _ & _ & ->)]; exact Hslot. }
    unfold flag_update. rewrite Hsym. simpl. now destruct rC.
  - destruct Hstart as (-> & _). destruct Hend as (-> & _).
    destruct Hcontent as (-> & _).
    intros [= <- <- <-]. reflexivity.
Qed.

(** X12.  Along any sequence of scan calls whose cursors come with the
    result slot reset to 0, the depth follows the tokens that were emitted:
    it is 1 if the last opener or closer emitted was an opener, 0 if it was
    a closer, and the initial depth if there was neither; content tokens and
    declined calls never change it. *)
Theorem scan_all_flag (calls : list (TSLexer * (TokenType -> bool))) :
  forall sc sc' outs,
    Forall (fun c => result_symbol (fst c) = symbol STRING_CONTENT) calls ->
    scan_all sc calls = Some (sc', outs) ->
    List.length outs = List.length calls /\
    brace_depth sc' = flag_after (brace_depth sc) outs.
Proof.
  induction calls as [|[lx vs] calls IH]; intros sc sc' outs Hslots; simpl.
  - intros [= <- <-]. split; reflexivity.
  - inversion Hslots as [|c cs Hslot Hrest]; subst.
    destruct (scan sc lx vs) as [[[r sc1] lx1]|] eqn:Hscan; [|discriminate].
    destruct (scan_all sc1 calls) as [[sc2 outs2]|] eqn:Hall; [|discriminate].
    intros [= <- <-].
    destruct (IH _ _ _ Hrest Hall) as (Hlen & Hflag).
    split; [simpl; now rewrite Hlen|].
    unfold flag_after in *. cbn [fold_left].
    rewrite <- (scan_flag_update _ _ _ _ _ _ Hslot Hscan). exact Hflag.
Qed.

Lemma scan_all_flag_witness :
  let at_ l := {| input := l; position := 0; token_end := None;
                  result_symbol := 0 |} in
  let text := accepts [STRING_CONTENT; STRING_INTERPOLATION_START] in
  let close := accepts [STRING_INTERPOLATION_END] in
  let calls := [ (at_ (codes "a${b}c"), text);
                 (at_ (codes "${b}c"), text);
                 (at_ (codes "}c"), close);
                 (at_ (codes "c"), text);
                 (at_ (codes "${"), text) ] in
  let outs := [(true, 0); (true, 1); (true, 2); (true, 0); (true, 1)] in
  scan_all tree_sitter_neon_external_scanner_create calls
  = Some ({| brace_depth := 1 |}, outs) /\
  List.length outs = List.length calls /\
  brace_depth {| brace_depth := 1 |}
  = flag_after (brace_depth tree_sitter_neon_external_scanner_create) outs.
Proof.
  intros at_ text close calls outs. split; [reflexivity|].
  apply (scan_all_flag calls tree_sitter_neon_external_scanner_create
           {| brace_depth := 1 |} outs).
  - repeat constructor.
  - reflexivity.
Defined.
